(** * preprocessing.py: corpus reader, vocabulary builder and tokenizer

    A shallow embedding of [extract_sentences], [get_token_to_index] and
    [tokenize_sents] together with the Python built-ins they call, and the
    properties of the three functions.

    Conventions of the embedding.
    - A Python [str] is a [string]; a character is its code point, so the
      model covers the code points 0..255.
    - A Python [int] is a [Z].
    - A Python exception is a value of [exn]; a computation that may raise
      has type [result A].
    - A Python [dict] used only through [in] and [d[k]] is a [gmap]; a
      [Counter], whose iteration order matters, is an association list in
      insertion order. *)

From Stdlib Require Import Ascii DecimalString.
From stdpp Require Import gmap strings list fin_maps sorting.

Local Open Scope string_scope.
Local Open Scope Z_scope.
Local Open Scope list_scope.

(** Let [simpl] and [cbn] compute the concatenation of strings. *)
Local Arguments String.append !_ _ / : simpl nomatch.

(** ** Exceptions and the error monad *)

Inductive exn : Type :=
  | ParseError                         (* xml.etree.ElementTree.ParseError *)
  | AttributeError                     (* 'NoneType' object has no attribute 'strip' *)
  | ValueError_invalid_literal (lit : string)
                                       (* invalid literal for int() with base 10: lit *)
  | ValueError_int_max_str_digits      (* Exceeds the limit for integer string conversion *)
  | KeyError (key : string).

Inductive result (A : Type) : Type :=
  | OK (a : A)
  | Raise (e : exn).
Arguments OK {A} a.
Arguments Raise {A} e.

Definition bind {A B} (m : result A) (k : A → result B) : result B :=
  match m with
  | OK a => k a
  | Raise e => Raise e
  end.

Notation "'do' x <- m ; k" := (bind m (λ x, k))
  (at level 10, x name, m at level 100, k at level 200).
Notation "'do' ' p <- m ; k" := (bind m (λ x, match x with p => k end))
  (at level 10, p pattern, m at level 100, k at level 200).

(** [[f(x) for x in l]] where [f] may raise: left to right, first exception wins. *)
Fixpoint map_result {A B} (f : A → result B) (l : list A) : result (list B) :=
  match l with
  | [] => OK []
  | x :: l' => do y <- f x; do ys <- map_result f l'; OK (y :: ys)
  end.

(** ** Python built-ins *)

Module Py.

(** *** The string methods and [int] *)

(** [c.isspace()] on the code points 0..255: tab to carriage return, the
    four separators 28..31, space, U+0085 and U+00A0. *)
Definition isspace (c : ascii) : bool :=
  let n := N_of_ascii c in
  ((9 <=? n) && (n <=? 13) || (28 <=? n) && (n <=? 32)
   || (n =? 133) || (n =? 160))%N.

(** [s.strip()] *)
Fixpoint str_lstrip (s : string) : string :=
  match s with
  | String c s' => if isspace c then str_lstrip s' else s
  | EmptyString => EmptyString
  end.

Fixpoint str_rstrip (s : string) : string :=
  match s with
  | String c s' =>
      match str_rstrip s' with
      | EmptyString => if isspace c then EmptyString else String c EmptyString
      | r => String c r
      end
  | EmptyString => EmptyString
  end.

Definition str_strip (s : string) : string := str_rstrip (str_lstrip s).

(** [s.split()]: the maximal runs of characters that are not whitespace. *)
Definition starts_word (s : string) : bool :=
  match s with
  | String c _ => negb (isspace c)
  | EmptyString => false
  end.

Fixpoint str_split (s : string) : list string :=
  match s with
  | String c s' =>
      if isspace c then str_split s'
      else if starts_word s' then
        match str_split s' with
        | w :: ws => String c w :: ws
        | [] => [String c EmptyString]
        end
      else String c EmptyString :: str_split s'
  | EmptyString => []
  end.

(** [s.split(sep)] for a one-character separator: empty pieces are kept. *)
Fixpoint str_split_on (sep : ascii) (s : string) : list string :=
  match s with
  | String c s' =>
      if Ascii.eqb c sep then EmptyString :: str_split_on sep s'
      else match str_split_on sep s' with
           | p :: ps => String c p :: ps
           | [] => [String c EmptyString]
           end
  | EmptyString => [EmptyString]
  end.

(** [s.replace(old, new)] for a one-character [old]. *)
Fixpoint str_replace (old : ascii) (new : string) (s : string) : string :=
  match s with
  | String c s' =>
      if Ascii.eqb c old then new +:+ str_replace old new s'
      else String c (str_replace old new s')
  | EmptyString => EmptyString
  end.

(** [int(s)] in base 10. The literal is an optional sign and decimal digits,
    where single underscores may stand between digits, surrounded by
    optional whitespace; [int] strips the six ASCII whitespace characters
    and the whitespace above 127 only. A literal of more than
    [int_max_str_digits] digits is refused. *)
Definition int_isspace (c : ascii) : bool :=
  let n := N_of_ascii c in
  ((9 <=? n) && (n <=? 13) || (n =? 32) || (n =? 133) || (n =? 160))%N.

Fixpoint int_lstrip (s : string) : string :=
  match s with
  | String c s' => if int_isspace c then int_lstrip s' else s
  | EmptyString => EmptyString
  end.

Definition digit_value (c : ascii) : option Z :=
  let n := N_of_ascii c in
  if ((48 <=? n) && (n <=? 57))%N then Some (Z.of_N n - 48) else None.

Definition int_max_str_digits : nat := 4300.

(** The scan of the digits: the value read so far, the number of digits
    read so far, whether the previous character was an underscore. The
    result is the value, the number of digits and the unread rest; [None]
    is a misplaced underscore. *)
Fixpoint scan_digits (s : string) (value : Z) (digits : nat) (prev_underscore : bool)
    : option (Z * nat * string) :=
  match s with
  | String c s' =>
      match digit_value c with
      | Some d => scan_digits s' (10 * value + d) (S digits) false
      | None =>
          if Ascii.eqb c "_" then
            if prev_underscore then None
            else scan_digits s' value digits true
          else if prev_underscore then None
          else Some (value, digits, s)
      end
  | EmptyString => if prev_underscore then None else Some (value, digits, s)
  end.

Definition py_int (s : string) : result Z :=
  let invalid := Raise (ValueError_invalid_literal s) in
  let stripped := int_lstrip s in
  let '(negative, body) :=
    match stripped with
    | String "-" r => (true, r)
    | String "+" r => (false, r)
    | _ => (false, stripped)
    end in
  match body with
  | String c _ =>
      match digit_value c with
      | Some _ =>
          match scan_digits body 0 0 false with
          | Some (value, digits, rest) =>
              if (int_max_str_digits <? digits)%nat
              then Raise ValueError_int_max_str_digits
              else match int_lstrip rest with
                   | EmptyString => OK (if negative then - value else value)
                   | _ => invalid
                   end
          | None => invalid
          end
      | None => invalid
      end
  | EmptyString => invalid
  end.

(** *** [Counter], [sorted], slices and [enumerate] *)

(** [Counter(tokens)]. A [Counter] is a [dict], which iterates over its
    keys in insertion order: the model is the association list of the
    counts in the order in which the keys were first seen. *)
Fixpoint counter_add (counts : list (string * Z)) (token : string)
    : list (string * Z) :=
  match counts with
  | [] => [(token, 1)]
  | (k, n) :: rest =>
      if String.eqb k token then (k, n + 1) :: rest
      else (k, n) :: counter_add rest token
  end.

Definition Counter (tokens : list string) : list (string * Z) :=
  fold_left counter_add tokens [].

(** [counted.keys()] *)
Definition counter_keys (counts : list (string * Z)) : list string := counts.*1.

(** [counted[x]]; a [Counter] answers 0 for a key it does not hold. *)
Fixpoint counter_getitem (counts : list (string * Z)) (x : string) : Z :=
  match counts with
  | [] => 0
  | (k, n) :: rest => if String.eqb k x then n else counter_getitem rest x
  end.

(** [sorted(xs, key=key, reverse=True)]: by descending key, and stable, so
    elements with equal keys keep the order they have in [xs]. *)
Fixpoint insert_desc (key : string → Z) (x : string) (sorted : list string)
    : list string :=
  match sorted with
  | [] => [x]
  | y :: rest =>
      if key y <=? key x then x :: y :: rest
      else y :: insert_desc key x rest
  end.

Definition sorted_reverse (key : string → Z) (xs : list string) : list string :=
  foldr (insert_desc key) [] xs.

(** [xs[:stop]]: a negative [stop] counts from the end, and the bounds are
    clipped to the list. *)
Definition slice_to {A} (xs : list A) (stop : Z) : list A :=
  if 0 <=? stop then take (Z.to_nat stop) xs
  else take (length xs - Z.to_nat (- stop)) xs.

(** [enumerate(xs)] *)
Fixpoint enumerate_from {A} (start : Z) (xs : list A) : list (Z * A) :=
  match xs with
  | [] => []
  | x :: rest => (start, x) :: enumerate_from (start + 1) rest
  end.

(** [{token: i for i, token in enumerate(tokens)}] *)
Definition index_dict (tokens : list string) : gmap string Z :=
  fold_left (λ d it, <[it.2 := it.1]> d) (enumerate_from 0 tokens) ∅.

End Py.
Import Py.

(** ** Element trees *)

Module ET.

(** An [xml.etree.ElementTree.Element]: its tag, the character data before
    its first child ([None] when there is none), its children, and the
    character data after its end tag. *)
#[warnings="-register-all"] Inductive Element : Type :=
  mkElement (tag : string) (text : option string) (children : list Element)
            (tail : option string).

Definition tag (e : Element) : string := let 'mkElement t _ _ _ := e in t.
Definition text (e : Element) : option string := let 'mkElement _ t _ _ := e in t.
Definition children (e : Element) : list Element := let 'mkElement _ _ c _ := e in c.
Definition tail (e : Element) : option string := let 'mkElement _ _ _ t := e in t.

(** [e.findall(name)] and [e.find(name)] for a plain tag name: the children
    of [e] with that tag, and the first of them. *)
Definition findall (name : string) (e : Element) : list Element :=
  filter (λ c, tag c = name) (children e).

Definition find (name : string) (e : Element) : option Element :=
  head (findall name e).

(** *** A model of [ET.fromstring]

    The parser of the library, on the documents the corpus format needs:
    elements with start tags, end tags and empty-element tags, character
    data, and the five predefined entity references. Attributes, prefixed
    names, numeric character references, comments, processing instructions,
    CDATA sections and a prolog are outside this model, which answers
    [ParseError] for them. The properties of [extract_sentences] that hold
    for all inputs are stated for an arbitrary parser; this one serves for
    the statements about concrete markup. *)

Definition in_range (lo hi : N) (c : ascii) : bool :=
  let n := N_of_ascii c in ((lo <=? n) && (n <=? hi))%N.

Definition name_start_char (c : ascii) : bool :=
  in_range 65 90 c || in_range 97 122 c || Ascii.eqb c "_"
  || in_range 192 214 c || in_range 216 246 c || in_range 248 255 c.

Definition name_char (c : ascii) : bool :=
  name_start_char c || in_range 48 57 c || Ascii.eqb c "-" || Ascii.eqb c "."
  || in_range 183 183 c.

(** White space of the markup: space, tab, line feed, carriage return. *)
Definition xml_space (c : ascii) : bool :=
  in_range 32 32 c || in_range 9 10 c || in_range 13 13 c.

(** A character that may stand in a document. *)
Definition xml_char (c : ascii) : bool :=
  in_range 32 255 c || in_range 9 10 c || in_range 13 13 c.

Fixpoint skip_ws (s : string) : string :=
  match s with
  | String c s' => if xml_space c then skip_ws s' else s
  | EmptyString => EmptyString
  end.

Fixpoint take_name (s : string) : string * string :=
  match s with
  | String c s' =>
      if name_char c then let '(n, r) := take_name s' in (String c n, r)
      else (EmptyString, s)
  | EmptyString => (EmptyString, EmptyString)
  end.

Definition parse_name (s : string) : result (string * string) :=
  match s with
  | String c _ => if name_start_char c then OK (take_name s) else Raise ParseError
  | EmptyString => Raise ParseError
  end.

Definition entity (name : string) : option ascii :=
  if String.eqb name "amp" then Some "&"%char
  else if String.eqb name "lt" then Some "<"%char
  else if String.eqb name "gt" then Some ">"%char
  else if String.eqb name "quot" then Some "034"%char
  else if String.eqb name "apos" then Some "'"%char
  else None.

(** The reader of character data is a machine over the characters:
    in [CdText n] it has just read [n] closing brackets (counted up to 2),
    in [CdCR] a carriage return, in [CdRef name] an ampersand and the
    characters [name] of a reference. *)
Inductive cd_state : Type :=
  | CdText (brackets : nat)
  | CdCR
  | CdRef (name : string).

Definition push (acc : string) (c : ascii) : string := acc +:+ String c EmptyString.

(** Character data up to the next tag or the end of the input: the decoded
    text and the unread rest. A carriage return, with a line feed after it
    or not, is read as one line feed; the sequence of two closing brackets
    and a greater-than sign is not allowed. *)
Fixpoint parse_chardata (s : string) (st : cd_state) (acc : string)
    : result (string * string) :=
  match s with
  | EmptyString =>
      match st with
      | CdRef _ => Raise ParseError
      | _ => OK (acc, EmptyString)
      end
  | String c s' =>
      match st with
      | CdRef name =>
          if Ascii.eqb c ";" then
            match entity name with
            | Some ch => parse_chardata s' (CdText 0) (push acc ch)
            | None => Raise ParseError
            end
          else if name_char c then parse_chardata s' (CdRef (push name c)) acc
          else Raise ParseError
      | _ =>
          if Ascii.eqb c "<" then OK (acc, s)
          else if Ascii.eqb c "&" then parse_chardata s' (CdRef EmptyString) acc
          else if Ascii.eqb c "013" then parse_chardata s' CdCR (push acc "010")
          else if Ascii.eqb c "010" then
            match st with
            | CdCR => parse_chardata s' (CdText 0) acc
            | _ => parse_chardata s' (CdText 0) (push acc c)
            end
          else if Ascii.eqb c "]" then
            match st with
            | CdText (S _) => parse_chardata s' (CdText 2) (push acc c)
            | _ => parse_chardata s' (CdText 1) (push acc c)
            end
          else if Ascii.eqb c ">" then
            match st with
            | CdText (S (S _)) => Raise ParseError
            | _ => parse_chardata s' (CdText 0) (push acc c)
            end
          else if xml_char c then parse_chardata s' (CdText 0) (push acc c)
          else Raise ParseError
      end
  end.

(** [None] for no character data at all. *)
Definition text_of (s : string) : option string :=
  match s with
  | EmptyString => None
  | _ => Some s
  end.

(** The two opening characters of an end tag, and the end of a start tag
    or of an empty-element tag. *)
Definition end_tag (s : string) : option string :=
  match s with
  | String "<" (String "/" r) => Some r
  | _ => None
  end.

Inductive tag_end : Type :=
  | TagOpen (rest : string)      (* the start tag of an element with content *)
  | TagEmpty (rest : string)     (* an empty-element tag *)
  | TagBad.

Definition tag_end_of (s : string) : tag_end :=
  match s with
  | String "/" (String ">" r) => TagEmpty r
  | String ">" r => TagOpen r
  | _ => TagBad
  end.

(** The rest of an end tag, after its two opening characters. *)
Definition parse_close (name : string) (s : string) : result string :=
  do '(n, r) <- parse_name s;
  if String.eqb n name then
    match tag_end_of (skip_ws r) with
    | TagOpen r' => OK r'
    | _ => Raise ParseError
    end
  else Raise ParseError.

(** A sequence of elements, each followed by its tail, up to an end tag or
    the end of the input. Every recursive call reads a shorter input, so
    the fuel [S (length s)] is never used up. *)
Fixpoint parse_nodes (fuel : nat) (s : string) : result (list Element * string) :=
  match fuel with
  | O => Raise ParseError
  | S fuel' =>
      match s with
      | EmptyString => OK ([], s)
      | String c s1 =>
          if negb (Ascii.eqb c "<") then Raise ParseError
          else match end_tag s with
          | Some _ => OK ([], s)
          | None =>
              do '(name, s2) <- parse_name s1;
              match tag_end_of (skip_ws s2) with
              | TagEmpty s3 =>
                  do '(tl, s4) <- parse_chardata s3 (CdText 0) EmptyString;
                  do '(siblings, s5) <- parse_nodes fuel' s4;
                  OK (mkElement name None [] (text_of tl) :: siblings, s5)
              | TagOpen s3 =>
                  do '(txt, s4) <- parse_chardata s3 (CdText 0) EmptyString;
                  do '(kids, s5) <- parse_nodes fuel' s4;
                  match end_tag s5 with
                  | Some s6 =>
                      do s7 <- parse_close name s6;
                      do '(tl, s8) <- parse_chardata s7 (CdText 0) EmptyString;
                      do '(siblings, s9) <- parse_nodes fuel' s8;
                      OK (mkElement name (text_of txt) kids (text_of tl)
                            :: siblings, s9)
                  | None => Raise ParseError
                  end
              | TagBad => Raise ParseError
              end
          end
      end
  end.

Fixpoint all_space (s : string) : bool :=
  match s with
  | String c s' => xml_space c && all_space s'
  | EmptyString => true
  end.

(** The document: one root element, white space allowed around it. *)
Definition xml_fromstring (content : string) : result Element :=
  let s := skip_ws content in
  do '(nodes, rest) <- parse_nodes (S (String.length s)) s;
  match nodes, rest with
  | [mkElement name txt kids tl], EmptyString =>
      if all_space (default EmptyString tl) then OK (mkElement name txt kids None)
      else Raise ParseError
  | _, _ => Raise ParseError
  end.

End ET.
Import ET.

(** ** The records of the data model *)

Record SentencePair : Type := mkSentencePair {
  source : list string;
  target : list string
}.

Record TokenizedSentencePair : Type := mkTokenizedSentencePair {
  source_tokens : list Z;
  target_tokens : list Z
}.

(** [tuple(map(int, pair.split('-')))] has as many components as the token
    has pieces, so a tuple is a list of integers here. *)
Record LabeledAlignment : Type := mkLabeledAlignment {
  sure : list (list Z);
  possible : list (list Z)
}.

(** ** extract_sentences *)

(** [e.text.strip().split() if e is not None else []]; the attribute
    [strip] of [None] does not exist. *)
Definition text_tokens (e : option Element) : result (list string) :=
  match e with
  | Some el =>
      match text el with
      | Some t => OK (str_split (str_strip t))
      | None => Raise AttributeError
      end
  | None => OK []
  end.

(** [tuple(map(int, pair.split('-')))] *)
Definition parse_pair (pair_ : string) : result (list Z) :=
  map_result py_int (str_split_on "-" pair_).

(** The alignments of a field: the list stays empty unless
    [e is not None and e.text], and is otherwise
    [[tuple(map(int, pair.split('-'))) for pair in e.text.strip().split()]]. *)
Definition alignment_pairs (e : option Element) : result (list (list Z)) :=
  match e with
  | Some el =>
      match text el with
      | Some (String _ _ as t) => map_result parse_pair (str_split (str_strip t))
      | _ => OK []
      end
  | None => OK []
  end.

(** One turn of the loop [for s in root.findall('s')]: the pair and the
    alignment of the sentence element [s]. *)
Definition sentence_of (s : Element) : result (SentencePair * LabeledAlignment) :=
  let english := find "english" s in
  let czech := find "czech" s in
  let sure := find "sure" s in
  let possible := find "possible" s in
  do english_text <- text_tokens english;
  do czech_text <- text_tokens czech;
  do sure_alignments <- alignment_pairs sure;
  do possible_alignments <- alignment_pairs possible;
  let sentence_pair := mkSentencePair english_text czech_text in
  let alignment := mkLabeledAlignment sure_alignments possible_alignments in
  OK (sentence_pair, alignment).

Fixpoint extract_loop (ss : list Element) (sentence_pairs : list SentencePair)
    (alignments : list LabeledAlignment)
    : result (list SentencePair * list LabeledAlignment) :=
  match ss with
  | [] => OK (sentence_pairs, alignments)
  | s :: rest =>
      do '(sentence_pair, alignment) <- sentence_of s;
      extract_loop rest (sentence_pairs ++ [sentence_pair])
                        (alignments ++ [alignment])
  end.

(** The function from the parsed [root] on. *)
Definition extract_root (root : Element)
    : result (list SentencePair * list LabeledAlignment) :=
  extract_loop (findall "s" root) [] [].

(** [extract_sentences], from the content of the file on. The parser
    [ET.fromstring] belongs to the Python library; the function is
    modelled for any parser [fromstring]. *)
Definition extract_sentences (fromstring : string → result Element)
    (content : string) : result (list SentencePair * list LabeledAlignment) :=
  let content := str_replace "&" "&amp;" content in
  do root <- fromstring content;
  extract_root root.

(** ** get_token_to_index *)

(** The loop [for pair in sentence_pairs: tokens.extend(side(pair))]. *)
Definition extend_all (side : SentencePair → list string)
    (sentence_pairs : list SentencePair) : list string :=
  fold_left (λ tokens pair_, tokens ++ side pair_) sentence_pairs [].

(** What the function does for one language, from the token list on:
    first the value of [sorted_source_tokens] (or [sorted_target_tokens])
    before the cutoff, then the cutoff and the dictionary. *)
Definition sorted_tokens_of (tokens : list string) : list string :=
  let counted := Counter tokens in
  sorted_reverse (λ x, counter_getitem counted x) (counter_keys counted).

Definition token_to_index (tokens : list string) (freq_cutoff : option Z)
    : gmap string Z :=
  let sorted_tokens := sorted_tokens_of tokens in
  let sorted_tokens :=
    match freq_cutoff with
    | Some n => slice_to sorted_tokens n
    | None => sorted_tokens
    end in
  index_dict sorted_tokens.

Definition get_token_to_index (sentence_pairs : list SentencePair)
    (freq_cutoff : option Z) : gmap string Z * gmap string Z :=
  let source_tokens := extend_all source sentence_pairs in
  let target_tokens := extend_all target sentence_pairs in
  (token_to_index source_tokens freq_cutoff,
   token_to_index target_tokens freq_cutoff).

(** ** tokenize_sents *)

(** [token in d] *)
Definition dict_contains (d : gmap string Z) (token : string) : bool :=
  bool_decide (is_Some (d !! token)).

(** [d[token]] *)
Definition dict_getitem (d : gmap string Z) (token : string) : result Z :=
  match d !! token with
  | Some i => OK i
  | None => Raise (KeyError token)
  end.

(** [[d[token] for token in tokens if token in d]] *)
Fixpoint indices_in (d : gmap string Z) (tokens : list string) : result (list Z) :=
  match tokens with
  | [] => OK []
  | token :: rest =>
      if dict_contains d token
      then do i <- dict_getitem d token;
           do tl <- indices_in d rest;
           OK (i :: tl)
      else indices_in d rest
  end.

(** The body of the [for pair in sentence_pairs] loop, threaded through the
    list [tokenized_sentence_pairs] built so far. *)
Fixpoint tokenize_loop (source_dict target_dict : gmap string Z)
    (sentence_pairs : list SentencePair)
    (tokenized_sentence_pairs : list TokenizedSentencePair)
    : result (list TokenizedSentencePair) :=
  match sentence_pairs with
  | [] => OK tokenized_sentence_pairs
  | pair_ :: rest =>
      do source_indices <- indices_in source_dict (source pair_);
      do target_indices <- indices_in target_dict (target pair_);
      if (length source_indices =? 0)%nat || (length target_indices =? 0)%nat
      then tokenize_loop source_dict target_dict rest tokenized_sentence_pairs
      else tokenize_loop source_dict target_dict rest
             (tokenized_sentence_pairs
                ++ [mkTokenizedSentencePair source_indices target_indices])
  end.

Definition tokenize_sents (sentence_pairs : list SentencePair)
    (source_dict target_dict : gmap string Z)
    : result (list TokenizedSentencePair) :=
  tokenize_loop source_dict target_dict sentence_pairs [].

(** ** Reference notions

    The notions in which the properties are stated, written from the
    contract of the functions and not from their code. *)

(** *** The tokenizer

    In the words of its contract:
    keep the tokens the vocabulary knows and replace each by its index. *)
Definition known (d : gmap string Z) (token : string) : bool :=
  bool_decide (is_Some (d !! token)).

Definition encode (d : gmap string Z) (tokens : list string) : list Z :=
  (λ token, default 0 (d !! token)) <$> filter (λ token, known d token = true) tokens.

(** A pair is retained when neither side is emptied by the filtering. *)
Definition retained (source_dict target_dict : gmap string Z)
    (p : SentencePair) : bool :=
  existsb (known source_dict) (source p)
  && existsb (known target_dict) (target p).

Definition encode_pair (source_dict target_dict : gmap string Z)
    (p : SentencePair) : TokenizedSentencePair :=
  mkTokenizedSentencePair (encode source_dict (source p))
                          (encode target_dict (target p)).

(** Vocabulary filtering empties a side when none of its tokens is known. *)
Definition emptied (d : gmap string Z) (tokens : list string) : Prop :=
  filter (λ token, known d token = true) tokens = [].

(** *** The vocabulary

    How often a token occurs, the
    position of its first occurrence ([list.index]), and whether the first
    occurrence of [a] comes before every occurrence of [b]. *)
Definition occurrences (x : string) (tokens : list string) : Z :=
  Z.of_nat (length (filter (λ y, y = x) tokens)).

Fixpoint first_index (x : string) (tokens : list string) : option nat :=
  match tokens with
  | [] => None
  | y :: rest => if String.eqb y x then Some 0%nat else S <$> first_index x rest
  end.

Fixpoint occurs_first (a b : string) (tokens : list string) : bool :=
  match tokens with
  | [] => false
  | y :: rest =>
      if String.eqb y a then negb (String.eqb a b)
      else if String.eqb y b then false
      else occurs_first a b rest
  end.

(** The indices of a vocabulary are exactly 0, ..., size-1, and no two
    tokens share one. *)
Definition dense (d : gmap string Z) : Prop :=
  (∀ v, (∃ t, d !! t = Some v) ↔ 0 ≤ v < Z.of_nat (size d))
  ∧ (∀ t1 t2 v, d !! t1 = Some v → d !! t2 = Some v → t1 = t2).

(** The cutoffs the contract allows: none, or a positive integer. *)
Definition valid_cutoff (freq_cutoff : option Z) : Prop :=
  match freq_cutoff with
  | Some n => 0 < n
  | None => True
  end.

(** The size the contract promises for the vocabulary of [tokens]. *)
Definition size_bound (freq_cutoff : option Z) (tokens : list string)
    (d : gmap string Z) : Prop :=
  match freq_cutoff with
  | Some n => Z.of_nat (size d) ≤ n
  | None => size d = length (remove_dups tokens)
  end.

(** The vocabulary [d] holds the frequency-sorted tokens of [tokens] except
    the last [k] of them (all of them away when there are fewer than [k]). *)
Definition drops_last (k : Z) (tokens : list string) (d : gmap string Z) : Prop :=
  ∃ kept dropped,
    sorted_tokens_of tokens = kept ++ dropped
    ∧ Z.of_nat (length dropped) = Z.min k (Z.of_nat (length (sorted_tokens_of tokens)))
    ∧ d = index_dict kept.

(** *** The alignment tokens and the markup *)






(** A string without any whitespace character. *)
Fixpoint no_space (s : string) : bool :=
  match s with
  | String c s' => negb (isspace c) && no_space s'
  | EmptyString => true
  end.





(** *** What the corpus reader accepts *)

(** A text field that can be read: when the element is there, it has a
    text. *)
Definition text_present (e : option Element) : Prop :=
  ∀ el, e = Some el → text el ≠ None.

(** An alignment field that can be read: every piece of every token of its
    text is read by [int]. *)
Definition pairs_readable (e : option Element) : Prop :=
  ∀ el t token piece,
    e = Some el → text el = Some t →
    token ∈ str_split (str_strip t) → piece ∈ str_split_on "-" token →
    ∃ z, py_int piece = OK z.

Definition accepted (s : Element) : Prop :=
  text_present (find "english" s) ∧ text_present (find "czech" s)
  ∧ pairs_readable (find "sure" s) ∧ pairs_readable (find "possible" s).

(** Why a sentence element makes the reader raise [e]: a text field without
    text, or a piece of a pair token on which [int] raises [e]. *)
Definition failure_cause (s : Element) (e : exn) : Prop :=
  (e = AttributeError
   ∧ ∃ field el, (field = "english" ∨ field = "czech")
       ∧ find field s = Some el ∧ text el = None)
  ∨ (∃ field el t token piece, (field = "sure" ∨ field = "possible")
       ∧ find field s = Some el ∧ text el = Some t
       ∧ token ∈ str_split (str_strip t) ∧ piece ∈ str_split_on "-" token
       ∧ py_int piece = Raise e).

(** The number of occurrences of a character in a string. *)
Fixpoint count_char (c : ascii) (s : string) : nat :=
  match s with
  | String c' s' => (if Ascii.eqb c' c then 1 else 0) + count_char c s'
  | EmptyString => 0
  end.

(** A token as [split] gives it: not empty and without whitespace. *)
Definition clean_token (w : string) : Prop :=
  w ≠ EmptyString ∧ no_space w = true.

(** A string of whitespace characters only. *)
Fixpoint all_whitespace (s : string) : bool :=
  match s with
  | String c s' => isspace c && all_whitespace s'
  | EmptyString => true
  end.

(* ===================================================================== *)
(** * Properties *)
(* ===================================================================== *)

(** ** Tokenizer *)

Lemma indices_in_encode (d : gmap string Z) (tokens : list string) :
  indices_in d tokens = OK (encode d tokens).
Proof.
  induction tokens as [|token rest IH]; [done|].
  unfold encode in *. cbn [indices_in]. rewrite filter_cons.
  unfold dict_contains, known, dict_getitem.
  destruct (bool_decide (is_Some (d !! token))) eqn:Hb.
  - apply bool_decide_eq_true in Hb as [i Hi].
    rewrite decide_True by done. rewrite Hi. cbn. rewrite IH. cbn.
    by rewrite Hi.
  - rewrite decide_False by done. exact IH.
Qed.

Lemma encode_nil_iff (d : gmap string Z) (tokens : list string) :
  encode d tokens = [] ↔ existsb (known d) tokens = false.
Proof.
  unfold encode. induction tokens as [|token rest IH]; [done|].
  rewrite filter_cons. cbn [existsb].
  destruct (known d token) eqn:Hk.
  - rewrite decide_True by done. cbn. split; intros; discriminate.
  - rewrite decide_False by congruence. cbn. exact IH.
Qed.

Lemma encode_length_zero (d : gmap string Z) (tokens : list string) :
  (length (encode d tokens) =? 0)%nat = negb (existsb (known d) tokens).
Proof.
  destruct (existsb (known d) tokens) eqn:E.
  - destruct (encode d tokens) eqn:H; [|done].
    apply encode_nil_iff in H. congruence.
  - apply encode_nil_iff in E. by rewrite E.
Qed.

Lemma retained_test (sd td : gmap string Z) (p : SentencePair) :
  (length (encode sd (source p)) =? 0)%nat
  || (length (encode td (target p)) =? 0)%nat
  = negb (retained sd td p).
Proof.
  rewrite !encode_length_zero. unfold retained.
  by destruct (existsb _ (source p)), (existsb _ (target p)).
Qed.

Lemma tokenize_loop_spec (sd td : gmap string Z) (sps : list SentencePair)
    (acc : list TokenizedSentencePair) :
  tokenize_loop sd td sps acc
  = OK (acc ++ (encode_pair sd td <$> filter (λ p, retained sd td p = true) sps)).
Proof.
  revert acc. induction sps as [|p sps IH]; intros acc.
  - cbn. by rewrite app_nil_r.
  - cbn [tokenize_loop]. rewrite !indices_in_encode. cbn [bind].
    rewrite retained_test, filter_cons.
    destruct (retained sd td p) eqn:Hr; cbn [negb].
    + rewrite decide_True by done. rewrite IH.
      rewrite <- app_assoc. done.
    + rewrite decide_False by done. apply IH.
Qed.

Lemma tokenize_sents_spec (sps : list SentencePair) (sd td : gmap string Z) :
  tokenize_sents sps sd td
  = OK (encode_pair sd td <$> filter (λ p, retained sd td p = true) sps).
Proof. unfold tokenize_sents. by rewrite tokenize_loop_spec. Qed.

Lemma emptied_existsb (d : gmap string Z) (tokens : list string) :
  emptied d tokens ↔ existsb (known d) tokens = false.
Proof.
  rewrite <- encode_nil_iff. unfold emptied, encode.
  split; [by intros ->|]. apply fmap_nil_inv.
Qed.

Lemma retained_not_emptied (sd td : gmap string Z) (p : SentencePair) :
  retained sd td p = true ↔ ¬ (emptied sd (source p) ∨ emptied td (target p)).
Proof.
  rewrite !emptied_existsb. unfold retained.
  destruct (existsb _ (source p)), (existsb _ (target p)); cbn; intuition congruence.
Qed.

(** C4. Every pair produced by [tokenize_sents] has a non-empty source side
    and a non-empty target side, there are at most as many output pairs as
    input pairs, and the output is the encoding, in order, of exactly the
    input pairs that vocabulary filtering leaves non-empty on both sides:
    the dropped pairs are those with an emptied source or target side. *)
Theorem tokenize_sents_drops_emptied (sps : list SentencePair)
    (sd td : gmap string Z) :
  ∃ out,
    tokenize_sents sps sd td = OK out
    ∧ Forall (λ t, source_tokens t ≠ [] ∧ target_tokens t ≠ []) out
    ∧ (length out ≤ length sps)%nat
    ∧ out = encode_pair sd td
              <$> filter (λ p, ¬ (emptied sd (source p) ∨ emptied td (target p))) sps.
Proof.
  eexists. split; [apply tokenize_sents_spec|].
  split; [|split].
  - apply Forall_fmap, Forall_forall. intros p [Hr _]%list_elem_of_filter.
    cbn. unfold retained in Hr. apply andb_true_iff in Hr as [Hs Ht].
    split; intros H%encode_nil_iff; congruence.
  - rewrite length_fmap. apply length_filter.
  - f_equal. apply list_filter_iff. intros p. apply retained_not_emptied.
Qed.


(** Scenario 3 of the specification: a pair whose target side has no known
    token yields no tokenized pair. *)
Example tokenize_sents_scenario3 :
  tokenize_sents [mkSentencePair ["the"; "cat"] ["kocka"]]
                 {["the" := 0; "cat" := 1]} {["pes" := 0]} = OK [].
Proof. vm_compute. reflexivity. Qed.

(** ** Vocabulary builder *)

Example get_token_to_index_scenario2 :
  get_token_to_index [mkSentencePair ["a"; "a"; "b"] ["x"]] (Some 1)
  = ({["a" := 0]}, {["x" := 0]}).
Proof. vm_compute. reflexivity. Qed.

Example get_token_to_index_ties :
  get_token_to_index
    [mkSentencePair ["b"; "a"; "c"; "a"] []; mkSentencePair ["c"; "d"] []] None
  = ({["a" := 0; "c" := 1; "b" := 2; "d" := 3]}, ∅).
Proof. vm_compute. reflexivity. Qed.

(** *** The counter *)

Ltac case_eqb :=
  repeat match goal with
  | |- context [String.eqb ?a ?b] => destruct (String.eqb_spec a b); subst
  | H : context [String.eqb ?a ?b] |- _ => destruct (String.eqb_spec a b); subst
  end.

Ltac eqb_crush :=
  case_eqb; cbn in *; try done; try congruence; try lia.

Lemma counter_add_keys (counts : list (string * Z)) (x : string) :
  counter_keys (counter_add counts x)
  = if decide (x ∈ counter_keys counts) then counter_keys counts
    else counter_keys counts ++ [x].
Proof.
  unfold counter_keys. induction counts as [|[k n] rest IH]; cbn.
  - by rewrite decide_False by apply not_elem_of_nil.
  - case_eqb; cbn.
    + by rewrite decide_True by left.
    + rewrite IH. destruct (decide (x ∈ rest.*1)) as [Hin|Hin].
      * by rewrite decide_True by by right.
      * rewrite decide_False; [done|]. rewrite elem_of_cons.
        intros [?|?]; congruence.
Qed.

Lemma counter_add_getitem (counts : list (string * Z)) (x y : string) :
  counter_getitem (counter_add counts x) y
  = counter_getitem counts y + (if decide (x = y) then 1 else 0).
Proof.
  induction counts as [|[k n] rest IH]; cbn.
  - case_eqb; case_decide; congruence || lia.
  - case_eqb; cbn; case_eqb; rewrite ?IH; case_decide; congruence || lia.
Qed.

Lemma occurrences_cons (x y : string) (tokens : list string) :
  occurrences x (y :: tokens)
  = (if decide (y = x) then 1 else 0) + occurrences x tokens.
Proof.
  unfold occurrences. rewrite filter_cons. case_decide; cbn [length]; lia.
Qed.

Lemma fold_counter_getitem (tokens : list string) (counts : list (string * Z))
    (x : string) :
  counter_getitem (fold_left counter_add tokens counts) x
  = counter_getitem counts x + occurrences x tokens.
Proof.
  revert counts. induction tokens as [|y tokens IH]; intros counts; cbn.
  - unfold occurrences. cbn. lia.
  - rewrite IH, counter_add_getitem, occurrences_cons. lia.
Qed.

Lemma Counter_getitem (tokens : list string) (x : string) :
  counter_getitem (Counter tokens) x = occurrences x tokens.
Proof. unfold Counter. by rewrite fold_counter_getitem. Qed.

Lemma fold_counter_keys_elem (tokens : list string) (counts : list (string * Z))
    (x : string) :
  x ∈ counter_keys (fold_left counter_add tokens counts)
  ↔ x ∈ counter_keys counts ∨ x ∈ tokens.
Proof.
  revert counts. induction tokens as [|y tokens IH]; intros counts; cbn.
  - rewrite elem_of_nil. tauto.
  - rewrite IH, counter_add_keys, elem_of_cons.
    case_decide; [|rewrite elem_of_app, list_elem_of_singleton];
      intuition (subst; auto).
Qed.

Lemma fold_counter_keys_NoDup (tokens : list string) (counts : list (string * Z)) :
  NoDup (counter_keys counts) →
  NoDup (counter_keys (fold_left counter_add tokens counts)).
Proof.
  revert counts. induction tokens as [|y tokens IH]; intros counts Hnd; cbn.
  - done.
  - apply IH. rewrite counter_add_keys. case_decide; [done|].
    apply NoDup_app. split_and!; [done| |apply NoDup_singleton].
    intros z Hz ->%list_elem_of_singleton. done.
Qed.

Lemma Counter_keys_elem (tokens : list string) (x : string) :
  x ∈ counter_keys (Counter tokens) ↔ x ∈ tokens.
Proof.
  unfold Counter. rewrite fold_counter_keys_elem. cbn.
  rewrite elem_of_nil. tauto.
Qed.

Lemma Counter_keys_NoDup (tokens : list string) :
  NoDup (counter_keys (Counter tokens)).
Proof. apply fold_counter_keys_NoDup. constructor. Qed.

(** *** First occurrences *)

Lemma occurs_first_skip (a b x : string) (l1 l2 : list string) :
  x ≠ a → x ≠ b →
  occurs_first a b (l1 ++ x :: l2) = occurs_first a b (l1 ++ l2).
Proof.
  intros Ha Hb. induction l1 as [|y l1 IH]; cbn.
  - case_eqb; congruence.
  - by rewrite IH.
Qed.

Lemma occurs_first_seen (a b x : string) (l1 l2 : list string) :
  x ∈ l1 →
  occurs_first a b (l1 ++ x :: l2) = occurs_first a b (l1 ++ l2).
Proof.
  induction l1 as [|y l1 IH]; [by intros ?%elem_of_nil|].
  intros [->|Hx]%elem_of_cons; cbn.
  - case_eqb; try done. by apply occurs_first_skip.
  - by rewrite IH.
Qed.

Lemma fold_counter_keys_order (a b : string) (tokens : list string)
    (counts : list (string * Z)) :
  occurs_first a b (counter_keys (fold_left counter_add tokens counts))
  = occurs_first a b (counter_keys counts ++ tokens).
Proof.
  revert counts. induction tokens as [|y tokens IH]; intros counts; cbn.
  - by rewrite app_nil_r.
  - rewrite IH, counter_add_keys. case_decide.
    + by rewrite occurs_first_seen.
    + by rewrite <- app_assoc.
Qed.

Lemma Counter_keys_order (a b : string) (tokens : list string) :
  occurs_first a b (counter_keys (Counter tokens)) = occurs_first a b tokens.
Proof. unfold Counter. by rewrite fold_counter_keys_order. Qed.

(** *** The stable descending sort *)

Lemma insert_desc_Permutation (key : string → Z) (x : string) (l : list string) :
  insert_desc key x l ≡ₚ x :: l.
Proof.
  induction l as [|y l IH]; cbn; [done|].
  destruct (key y <=? key x); [done|].
  rewrite IH. apply Permutation_swap.
Qed.

Lemma sorted_reverse_Permutation (key : string → Z) (l : list string) :
  sorted_reverse key l ≡ₚ l.
Proof.
  induction l as [|x l IH]; cbn; [done|].
  rewrite insert_desc_Permutation. by rewrite IH.
Qed.

Lemma insert_desc_sorted (key : string → Z) (x : string) (l : list string) :
  StronglySorted (λ u v, key v ≤ key u) l →
  StronglySorted (λ u v, key v ≤ key u) (insert_desc key x l).
Proof.
  induction 1 as [|y l Hl IH Hy]; cbn.
  - repeat constructor.
  - destruct (Z.leb_spec (key y) (key x)).
    + constructor; [by constructor|].
      constructor; [done|]. eapply Forall_impl; [exact Hy|]. cbn. lia.
    + constructor; [done|]. rewrite insert_desc_Permutation.
      constructor; [lia|done].
Qed.

Lemma sorted_reverse_sorted (key : string → Z) (l : list string) :
  StronglySorted (λ u v, key v ≤ key u) (sorted_reverse key l).
Proof.
  induction l as [|x l IH]; cbn; [constructor|]. by apply insert_desc_sorted.
Qed.

Lemma insert_desc_other (key : string → Z) (a b x : string) (l : list string) :
  x ≠ a → x ≠ b →
  occurs_first a b (insert_desc key x l) = occurs_first a b l.
Proof.
  intros Ha Hb. induction l as [|y l IH]; cbn; [eqb_crush|].
  destruct (key y <=? key x); cbn; rewrite ?IH; eqb_crush.
Qed.

Lemma insert_desc_first (key : string → Z) (a b : string) (l : list string) :
  a ≠ b → key b ≤ key a →
  occurs_first a b (insert_desc key a l) = true.
Proof.
  intros Hab Hk. induction l as [|y l IH]; cbn; [eqb_crush|].
  destruct (Z.leb_spec (key y) (key a)); cbn; rewrite ?IH; eqb_crush.
Qed.

Lemma insert_desc_second (key : string → Z) (a b : string) (l : list string) :
  a ≠ b → key a ≤ key b →
  occurs_first a b (insert_desc key b l) = false.
Proof.
  intros Hab Hk. induction l as [|y l IH]; cbn; [eqb_crush|].
  destruct (Z.leb_spec (key y) (key b)); cbn; rewrite ?IH; eqb_crush.
Qed.

Lemma occurs_first_same (a : string) (l : list string) :
  occurs_first a a l = false.
Proof. induction l as [|y l IH]; cbn; [done|]. eqb_crush. Qed.

(** Stability: elements with equal keys keep their relative order. *)
Lemma sorted_reverse_stable (key : string → Z) (a b : string) (l : list string) :
  key a = key b →
  occurs_first a b (sorted_reverse key l) = occurs_first a b l.
Proof.
  intros Hk. induction l as [|x l IH]; cbn; [done|].
  destruct (String.eqb_spec x a) as [->|Hxa].
  - destruct (String.eqb_spec a b) as [->|Hab]; cbn.
    + by rewrite occurs_first_same.
    + apply insert_desc_first; [done|lia].
  - destruct (String.eqb_spec x b) as [->|Hxb].
    + apply insert_desc_second; [congruence|lia].
    + by rewrite insert_desc_other.
Qed.

(** *** Positions in a duplicate-free list *)

Lemma occurs_first_lookup (a b : string) (l : list string) (i j : nat) :
  NoDup l → l !! i = Some a → l !! j = Some b →
  occurs_first a b l = true ↔ (i < j)%nat.
Proof.
  intros Hnd. revert i j. induction Hnd as [|y l Hy Hnd IH]; intros i j Hi Hj.
  - done.
  - cbn. destruct i as [|i], j as [|j]; cbn in Hi, Hj; simplify_eq.
    + rewrite !String.eqb_refl. cbn. split; [done|lia].
    + rewrite String.eqb_refl.
      assert (b ∈ l) by by eapply list_elem_of_lookup_2.
      destruct (String.eqb_spec a b) as [->|]; [done|]. cbn. split; [lia|done].
    + assert (a ∈ l) by by eapply list_elem_of_lookup_2.
      destruct (String.eqb_spec b a) as [->|]; [done|].
      rewrite String.eqb_refl. split; [done|lia].
    + assert (a ∈ l) by by eapply list_elem_of_lookup_2.
      assert (b ∈ l) by by eapply list_elem_of_lookup_2.
      destruct (String.eqb_spec y a) as [->|]; [done|].
      destruct (String.eqb_spec y b) as [->|]; [done|].
      rewrite (IH i j) by done. lia.
Qed.

Lemma occurs_first_first_index (a b : string) (l : list string) (i j : nat) :
  first_index a l = Some i → first_index b l = Some j →
  occurs_first a b l = true ↔ (i < j)%nat.
Proof.
  revert i j. induction l as [|y l IH]; intros i j; cbn; [done|].
  destruct (String.eqb_spec y a) as [->|Hya].
  - intros [= <-]. destruct (String.eqb_spec a b) as [->|Hab]; cbn.
    + intros [= <-]. split; [done|lia].
    + destruct (first_index b l); intros [= <-]. split; [lia|done].
  - destruct (String.eqb_spec y b) as [->|Hyb].
    + destruct (first_index a l); intros [= <-] [= <-]. split; [done|lia].
    + destruct (first_index a l) as [i'|], (first_index b l) as [j'|];
        intros [= <-] [= <-]. rewrite (IH i' j') by done. lia.
Qed.

Lemma first_index_is_Some (x : string) (l : list string) :
  x ∈ l → is_Some (first_index x l).
Proof.
  induction l as [|y l IH]; [by intros ?%elem_of_nil|].
  intros Hx. cbn. destruct (String.eqb_spec y x) as [->|Hne]; [by eexists|].
  apply elem_of_cons in Hx as [->|Hx]; [done|].
  destruct (IH Hx) as [i ->]. by eexists.
Qed.

Lemma first_index_None (x : string) (l : list string) :
  first_index x l = None ↔ x ∉ l.
Proof.
  induction l as [|y l IH]; cbn.
  - split; [intros _; apply not_elem_of_nil|done].
  - rewrite not_elem_of_cons. destruct (String.eqb_spec y x) as [->|Hne].
    + split; [done|]. by intros [? _].
    + destruct (first_index x l); cbn.
      * split; [done|]. intros [_ Hx]. by apply IH in Hx.
      * split; [|done]. intros _. split; [done|]. by apply IH.
Qed.

Lemma first_index_lookup (x : string) (l : list string) (n : nat) :
  first_index x l = Some n → l !! n = Some x.
Proof.
  revert n. induction l as [|y l IH]; intros n; cbn; [done|].
  destruct (String.eqb_spec y x) as [->|Hne].
  - by intros [= <-].
  - destruct (first_index x l) as [m|]; intros [= <-]. cbn. by apply IH.
Qed.

Lemma first_index_NoDup (x : string) (l : list string) (n : nat) :
  NoDup l → l !! n = Some x → first_index x l = Some n.
Proof.
  intros Hnd. revert n. induction Hnd as [|y l Hy Hnd IH]; intros n; [done|].
  destruct n as [|n]; cbn.
  - intros [= ->]. by rewrite String.eqb_refl.
  - intros Hn. destruct (String.eqb_spec y x) as [->|Hne].
    + destruct Hy. by eapply list_elem_of_lookup_2.
    + by rewrite (IH n).
Qed.

Lemma first_index_take (x : string) (l : list string) (m : nat) :
  first_index x (take m l)
  = match first_index x l with
    | Some n => if decide (n < m)%nat then Some n else None
    | None => None
    end.
Proof.
  revert m. induction l as [|y l IH]; intros [|m]; cbn; try done.
  - destruct (String.eqb y x); [done|]. by destruct (first_index x l).
  - destruct (String.eqb y x); [done|]. rewrite IH.
    destruct (first_index x l) as [n|]; [|done]. cbn.
    destruct (decide (n < m)%nat).
    + by rewrite decide_True by lia.
    + by rewrite decide_False by lia.
Qed.

(** *** The index dictionary *)

Lemma fold_index_lookup (l : list string) (start : Z) (d : gmap string Z)
    (t : string) :
  NoDup l →
  fold_left (λ d it, <[it.2 := it.1]> d) (enumerate_from start l) d !! t
  = match first_index t l with
    | Some n => Some (start + Z.of_nat n)
    | None => d !! t
    end.
Proof.
  intros Hnd. revert start d.
  induction Hnd as [|y l Hy Hnd IH]; intros start d; cbn; [done|].
  rewrite IH. destruct (String.eqb_spec y t) as [->|Hne].
  - apply first_index_None in Hy. rewrite Hy.
    rewrite lookup_insert_eq. f_equal. lia.
  - destruct (first_index t l) as [n|]; cbn.
    + f_equal. lia.
    + by rewrite lookup_insert_ne.
Qed.

Lemma index_dict_lookup (l : list string) (t : string) :
  NoDup l → index_dict l !! t = Z.of_nat <$> first_index t l.
Proof.
  intros Hnd. unfold index_dict. rewrite fold_index_lookup by done.
  destruct (first_index t l); cbn; [done|]. apply lookup_empty.
Qed.

Lemma index_dict_lookup_Some (l : list string) (t : string) (v : Z) :
  NoDup l →
  index_dict l !! t = Some v ↔ ∃ n : nat, v = Z.of_nat n ∧ l !! n = Some t.
Proof.
  intros Hnd. rewrite index_dict_lookup by done. split.
  - destruct (first_index t l) as [n|] eqn:Hn; intros [= <-].
    exists n. split; [done|]. by apply first_index_lookup.
  - intros (n & -> & Hn). by rewrite (first_index_NoDup t l n).
Qed.

Lemma index_dict_size (l : list string) :
  NoDup l → size (index_dict l) = length l.
Proof.
  intros Hnd. rewrite <- size_dom.
  assert (dom (index_dict l) = list_to_set l) as ->.
  { apply set_eq. intros t. rewrite elem_of_dom, elem_of_list_to_set.
    rewrite index_dict_lookup by done.
    destruct (first_index t l) as [n|] eqn:Hn; cbn.
    - split; [|by eauto]. intros _.
      eapply list_elem_of_lookup_2, first_index_lookup, Hn.
    - apply first_index_None in Hn. split; [by intros [? ?]|done]. }
  by apply size_list_to_set.
Qed.

(** *** The sorted token list of one language *)

Lemma sorted_tokens_of_NoDup (tokens : list string) :
  NoDup (sorted_tokens_of tokens).
Proof.
  unfold sorted_tokens_of. rewrite sorted_reverse_Permutation.
  apply Counter_keys_NoDup.
Qed.

Lemma sorted_tokens_of_elem (tokens : list string) (x : string) :
  x ∈ sorted_tokens_of tokens ↔ x ∈ tokens.
Proof.
  unfold sorted_tokens_of. rewrite sorted_reverse_Permutation.
  apply Counter_keys_elem.
Qed.

Lemma sorted_tokens_of_length (tokens : list string) :
  length (sorted_tokens_of tokens) = length (remove_dups tokens).
Proof.
  apply Permutation_length, NoDup_Permutation.
  - apply sorted_tokens_of_NoDup.
  - apply NoDup_remove_dups.
  - intros x. by rewrite sorted_tokens_of_elem, elem_of_remove_dups.
Qed.

Lemma slice_to_NoDup {A} (l : list A) (n : Z) : NoDup l → NoDup (slice_to l n).
Proof.
  intros Hnd. unfold slice_to.
  destruct (0 <=? n); (eapply sublist_NoDup; [done|apply sublist_take]).
Qed.

Lemma token_to_index_unfold (tokens : list string) (freq_cutoff : option Z) :
  token_to_index tokens freq_cutoff
  = index_dict (match freq_cutoff with
                | Some n => slice_to (sorted_tokens_of tokens) n
                | None => sorted_tokens_of tokens
                end).
Proof. done. Qed.

Lemma kept_tokens_NoDup (tokens : list string) (freq_cutoff : option Z) :
  NoDup (match freq_cutoff with
         | Some n => slice_to (sorted_tokens_of tokens) n
         | None => sorted_tokens_of tokens
         end).
Proof.
  destruct freq_cutoff; [apply slice_to_NoDup|]; apply sorted_tokens_of_NoDup.
Qed.

Lemma extend_all_concat (side : SentencePair → list string)
    (sps : list SentencePair) :
  extend_all side sps = mjoin (side <$> sps).
Proof.
  unfold extend_all.
  enough (∀ acc, fold_left (λ tokens p, tokens ++ side p) sps acc
                 = acc ++ mjoin (side <$> sps)) as H by apply (H []).
  induction sps as [|p sps IH]; intros acc; cbn.
  - by rewrite app_nil_r.
  - by rewrite IH, app_assoc.
Qed.

Lemma index_dict_dense (l : list string) : NoDup l → dense (index_dict l).
Proof.
  intros Hnd. split.
  - intros v. rewrite index_dict_size by done. split.
    + intros (t & (n & -> & Hn)%index_dict_lookup_Some); [|done].
      apply lookup_lt_Some in Hn. lia.
    + intros Hv. destruct (lookup_lt_is_Some_2 l (Z.to_nat v)) as [t Ht]; [lia|].
      exists t. apply index_dict_lookup_Some; [done|].
      exists (Z.to_nat v). split; [lia|done].
  - intros t1 t2 v (n1 & -> & H1)%index_dict_lookup_Some; [|done].
    intros (n2 & Heq & H2)%index_dict_lookup_Some; [|done].
    assert (n1 = n2) as -> by lia. congruence.
Qed.

Lemma token_to_index_dense (tokens : list string) (freq_cutoff : option Z) :
  dense (token_to_index tokens freq_cutoff).
Proof.
  rewrite token_to_index_unfold. apply index_dict_dense, kept_tokens_NoDup.
Qed.

Lemma token_to_index_size (tokens : list string) (freq_cutoff : option Z) :
  valid_cutoff freq_cutoff →
  size_bound freq_cutoff tokens (token_to_index tokens freq_cutoff).
Proof.
  intros Hv. rewrite token_to_index_unfold.
  unfold size_bound. rewrite index_dict_size; [|apply kept_tokens_NoDup].
  destruct freq_cutoff as [n|]; cbn in *.
  - unfold slice_to. rewrite (proj2 (Z.leb_le 0 n)) by lia.
    rewrite length_take. lia.
  - apply sorted_tokens_of_length.
Qed.

(** C5. For every corpus, and for no cutoff or a positive one, each of the
    two maps of [get_token_to_index] has the indices 0, ..., size-1, each
    exactly once; its size is at most the cutoff when there is one, and the
    number of distinct tokens of the language otherwise. *)
Theorem get_token_to_index_dense (sps : list SentencePair)
    (freq_cutoff : option Z) :
  valid_cutoff freq_cutoff →
  dense (get_token_to_index sps freq_cutoff).1
  ∧ dense (get_token_to_index sps freq_cutoff).2
  ∧ size_bound freq_cutoff (mjoin (source <$> sps))
      (get_token_to_index sps freq_cutoff).1
  ∧ size_bound freq_cutoff (mjoin (target <$> sps))
      (get_token_to_index sps freq_cutoff).2.
Proof.
  intros Hv. unfold get_token_to_index. cbn [fst snd].
  rewrite <- !extend_all_concat.
  split_and!; auto using token_to_index_dense, token_to_index_size.
Qed.

Lemma get_token_to_index_dense_witness :
  dense (get_token_to_index [mkSentencePair ["a"; "a"; "b"] ["x"; "y"]] (Some 1)).1
  ∧ dense (get_token_to_index [mkSentencePair ["a"; "a"; "b"] ["x"; "y"]] (Some 1)).2
  ∧ size_bound (Some 1) (mjoin (source <$> [mkSentencePair ["a"; "a"; "b"] ["x"; "y"]]))
      (get_token_to_index [mkSentencePair ["a"; "a"; "b"] ["x"; "y"]] (Some 1)).1
  ∧ size_bound (Some 1) (mjoin (target <$> [mkSentencePair ["a"; "a"; "b"] ["x"; "y"]]))
      (get_token_to_index [mkSentencePair ["a"; "a"; "b"] ["x"; "y"]] (Some 1)).2.
Proof.
  apply (get_token_to_index_dense
           [mkSentencePair ["a"; "a"; "b"] ["x"; "y"]] (Some 1)).
  cbn. lia.
Defined.

Lemma StronglySorted_lookup_lt {A} (R : relation A) (l : list A) (i j : nat)
    (x y : A) :
  StronglySorted R l → l !! i = Some x → l !! j = Some y → (i < j)%nat → R x y.
Proof.
  intros Hs. revert i j. induction Hs as [|z l Hs IH Hz]; intros i j; [done|].
  destruct i as [|i], j as [|j]; cbn; try lia.
  - intros [= ->] Hy _. rewrite Forall_forall in Hz.
    by eapply Hz, list_elem_of_lookup_2.
  - intros Hx Hy Hlt. apply (IH i j); [done..|lia].
Qed.

Lemma StronglySorted_weaken {A} (R R' : relation A) (l : list A) :
  (∀ x y, R x y → R' x y) → StronglySorted R l → StronglySorted R' l.
Proof.
  intros HR. induction 1 as [|z l Hs IH Hz]; constructor; [done|].
  eapply Forall_impl; [exact Hz|]. auto.
Qed.

Lemma slice_to_lookup {A} (l : list A) (n : Z) (i : nat) (x : A) :
  slice_to l n !! i = Some x → l !! i = Some x.
Proof.
  unfold slice_to. destruct (0 <=? n); by intros [? _]%lookup_take_Some.
Qed.

Lemma kept_tokens_lookup (tokens : list string) (freq_cutoff : option Z)
    (i : nat) (x : string) :
  match freq_cutoff with
  | Some n => slice_to (sorted_tokens_of tokens) n
  | None => sorted_tokens_of tokens
  end !! i = Some x →
  sorted_tokens_of tokens !! i = Some x.
Proof. destruct freq_cutoff; [apply slice_to_lookup|done]. Qed.

Lemma sorted_tokens_of_sorted (tokens : list string) :
  StronglySorted (λ u v, occurrences v tokens ≤ occurrences u tokens)
    (sorted_tokens_of tokens).
Proof.
  unfold sorted_tokens_of.
  eapply StronglySorted_weaken; [|apply sorted_reverse_sorted].
  intros u v. cbn. by rewrite !Counter_getitem.
Qed.

Lemma sorted_tokens_of_stable (tokens : list string) (a b : string) :
  occurrences a tokens = occurrences b tokens →
  occurs_first a b (sorted_tokens_of tokens) = occurs_first a b tokens.
Proof.
  intros Hocc. unfold sorted_tokens_of.
  rewrite sorted_reverse_stable by by rewrite !Counter_getitem.
  apply Counter_keys_order.
Qed.

Lemma token_to_index_order (tokens : list string) (freq_cutoff : option Z)
    (a b : string) (i j : Z) :
  token_to_index tokens freq_cutoff !! a = Some i →
  token_to_index tokens freq_cutoff !! b = Some j →
  ∃ p q : nat,
    first_index a tokens = Some p ∧ first_index b tokens = Some q
    ∧ (occurrences b tokens < occurrences a tokens → i < j)
    ∧ (occurrences a tokens = occurrences b tokens → i < j ↔ (p < q)%nat).
Proof.
  rewrite token_to_index_unfold.
  pose proof (kept_tokens_NoDup tokens freq_cutoff) as Hnd.
  intros (n & -> & Hn%kept_tokens_lookup)%index_dict_lookup_Some; [|done].
  intros (m & -> & Hm%kept_tokens_lookup)%index_dict_lookup_Some; [|done].
  clear Hnd. pose proof (sorted_tokens_of_NoDup tokens) as Hnd.
  destruct (first_index_is_Some a tokens) as [p Hp].
  { by eapply sorted_tokens_of_elem, list_elem_of_lookup_2. }
  destruct (first_index_is_Some b tokens) as [q Hq].
  { by eapply sorted_tokens_of_elem, list_elem_of_lookup_2. }
  exists p, q. split_and!; [done..| |].
  - intros Hlt. destruct (decide (n < m)%nat) as [|Hge]; [lia|].
    destruct (decide (n = m)) as [->|Hne].
    + assert (a = b) as -> by congruence. lia.
    + pose proof (StronglySorted_lookup_lt _ _ m n b a
                    (sorted_tokens_of_sorted tokens) Hm Hn). lia.
  - intros Heq.
    rewrite <- (occurs_first_first_index a b tokens p q) by done.
    rewrite <- sorted_tokens_of_stable by done.
    rewrite (occurs_first_lookup a b _ n m) by done. lia.
Qed.

(** C9. The order of a vocabulary is fixed by the corpus alone: of two
    tokens of a language that both received an index, the more frequent one
    has the smaller index, and of two equally frequent ones the one whose
    first occurrence in the concatenated token sequence comes first has the
    smaller index; the token strings themselves play no part. *)
Theorem get_token_to_index_tie_break (sps : list SentencePair)
    (freq_cutoff : option Z) (tokens : list string) (d : gmap string Z)
    (a b : string) (i j : Z) :
  (tokens, d) ∈ [ (mjoin (source <$> sps), (get_token_to_index sps freq_cutoff).1);
                  (mjoin (target <$> sps), (get_token_to_index sps freq_cutoff).2) ] →
  d !! a = Some i → d !! b = Some j →
  ∃ p q : nat,
    first_index a tokens = Some p ∧ first_index b tokens = Some q
    ∧ (occurrences b tokens < occurrences a tokens → i < j)
    ∧ (occurrences a tokens = occurrences b tokens → i < j ↔ (p < q)%nat).
Proof.
  unfold get_token_to_index. cbn [fst snd]. rewrite !extend_all_concat.
  intros [[= -> ->]|[[= -> ->]|[]%elem_of_nil]%elem_of_cons]%elem_of_cons;
    apply token_to_index_order.
Qed.

Lemma get_token_to_index_tie_break_witness :
  ∃ p q : nat,
    first_index "a" ["b"; "a"; "c"; "a"; "c"; "d"] = Some p
    ∧ first_index "c" ["b"; "a"; "c"; "a"; "c"; "d"] = Some q
    ∧ (occurrences "c" ["b"; "a"; "c"; "a"; "c"; "d"]
       < occurrences "a" ["b"; "a"; "c"; "a"; "c"; "d"] → 0 < 1)
    ∧ (occurrences "a" ["b"; "a"; "c"; "a"; "c"; "d"]
       = occurrences "c" ["b"; "a"; "c"; "a"; "c"; "d"] → 0 < 1 ↔ (p < q)%nat).
Proof.
  apply (get_token_to_index_tie_break
           [mkSentencePair ["b"; "a"; "c"; "a"] []; mkSentencePair ["c"; "d"] []]
           None ["b"; "a"; "c"; "a"; "c"; "d"]
           {["a" := 0; "c" := 1; "b" := 2; "d" := 3]} "a" "c" 0 1).
  - apply elem_of_cons. left. vm_compute. reflexivity.
  - vm_compute. reflexivity.
  - vm_compute. reflexivity.
Defined.

(** *** Cutoffs outside the contract *)

Lemma tokenize_sents_empty_dicts (sps : list SentencePair) :
  tokenize_sents sps ∅ ∅ = OK [].
Proof.
  rewrite tokenize_sents_spec. f_equal.
  induction sps as [|p sps IH]; [done|].
  rewrite filter_cons, decide_False; [by rewrite IH|].
  unfold retained. rewrite not_true_iff_false, andb_false_iff. left.
  induction (source p) as [|t l IHl]; [done|]. cbn. rewrite IHl.
  unfold known. rewrite lookup_empty. done.
Qed.

Lemma slice_to_negative (tokens : list string) (n : Z) :
  n < 0 →
  drops_last (- n) tokens (index_dict (slice_to (sorted_tokens_of tokens) n)).
Proof.
  intros Hn. unfold slice_to, drops_last.
  rewrite (proj2 (Z.leb_gt 0 n)) by done.
  set (l := sorted_tokens_of tokens).
  exists (take (length l - Z.to_nat (- n)) l), (drop (length l - Z.to_nat (- n)) l).
  split_and!; [by rewrite take_drop| |done].
  rewrite length_drop. lia.
Qed.

(** C10. [get_token_to_index] accepts a cutoff that is not positive: with
    the cutoff 0 both maps are empty, and [tokenize_sents] with two empty
    maps returns the empty list; with a negative cutoff [n] each map holds
    the frequency-sorted tokens of its language except the last [|n|]. *)
Theorem get_token_to_index_nonpositive_cutoff (sps : list SentencePair) (n : Z) :
  n < 0 →
  get_token_to_index sps (Some 0) = (∅, ∅)
  ∧ tokenize_sents sps ∅ ∅ = OK []
  ∧ drops_last (- n) (mjoin (source <$> sps)) (get_token_to_index sps (Some n)).1
  ∧ drops_last (- n) (mjoin (target <$> sps)) (get_token_to_index sps (Some n)).2.
Proof.
  intros Hn. unfold get_token_to_index. cbn [fst snd].
  rewrite !extend_all_concat, !token_to_index_unfold.
  split_and!.
  - unfold slice_to. cbn. by rewrite !take_0.
  - apply tokenize_sents_empty_dicts.
  - by apply slice_to_negative.
  - by apply slice_to_negative.
Qed.

Lemma get_token_to_index_nonpositive_cutoff_witness :
  get_token_to_index [mkSentencePair ["a"; "a"; "b"; "c"] ["x"; "y"]] (Some 0) = (∅, ∅)
  ∧ tokenize_sents [mkSentencePair ["a"; "a"; "b"; "c"] ["x"; "y"]] ∅ ∅ = OK []
  ∧ drops_last (- -2) (mjoin (source <$> [mkSentencePair ["a"; "a"; "b"; "c"] ["x"; "y"]]))
      (get_token_to_index [mkSentencePair ["a"; "a"; "b"; "c"] ["x"; "y"]] (Some (-2))).1
  ∧ drops_last (- -2) (mjoin (target <$> [mkSentencePair ["a"; "a"; "b"; "c"] ["x"; "y"]]))
      (get_token_to_index [mkSentencePair ["a"; "a"; "b"; "c"] ["x"; "y"]] (Some (-2))).2.
Proof.
  apply (get_token_to_index_nonpositive_cutoff
           [mkSentencePair ["a"; "a"; "b"; "c"] ["x"; "y"]] (-2)).
  lia.
Defined.

Example get_token_to_index_negative_cutoff :
  get_token_to_index [mkSentencePair ["a"; "a"; "b"; "c"] ["x"; "y"]] (Some (-2))
  = ({["a" := 0]}, ∅).
Proof. vm_compute. reflexivity. Qed.

(** ** Strings and integers *)

Example str_split_example :
  str_split (str_strip ("  the cat" +:+ String "009" ("sat" +:+ String "010" " ")))
  = ["the"; "cat"; "sat"]
  ∧ str_split "" = [] ∧ str_split "   " = [].
Proof. repeat split. Qed.

Example str_split_on_example :
  str_split_on "-" "1-2" = ["1"; "2"] ∧ str_split_on "-" "-1--2" = [""; "1"; ""; "2"]
  ∧ str_split_on "-" "" = [""].
Proof. repeat split. Qed.

Example py_int_examples :
  py_int "12" = OK 12 ∧ py_int "+7" = OK 7 ∧ py_int "007" = OK 7
  ∧ py_int "1_000" = OK 1000 ∧ py_int " 5 " = OK 5
  ∧ py_int "" = Raise (ValueError_invalid_literal "")
  ∧ py_int "1__0" = Raise (ValueError_invalid_literal "1__0")
  ∧ py_int "_1" = Raise (ValueError_invalid_literal "_1")
  ∧ py_int "1_" = Raise (ValueError_invalid_literal "1_")
  ∧ py_int "a" = Raise (ValueError_invalid_literal "a")
  ∧ py_int "1 2" = Raise (ValueError_invalid_literal "1 2").
Proof. repeat split. Qed.

(** ** Corpus reader *)

Example xml_fromstring_examples :
  xml_fromstring "<r><a></a><b/><c> </c><d>x<e/>y</d>z</r>"
  = OK (mkElement "r" None
          [mkElement "a" None [] None; mkElement "b" None [] None;
           mkElement "c" (Some " ") [] None;
           mkElement "d" (Some "x") [mkElement "e" None [] (Some "y")] (Some "z")]
          None)
  ∧ xml_fromstring "<r>a & b</r>" = Raise ParseError
  ∧ xml_fromstring "<r>a &amp; b</r>" = OK (mkElement "r" (Some "a & b") [] None)
  ∧ xml_fromstring "<r>a &amp;amp; b</r>" = OK (mkElement "r" (Some "a &amp; b") [] None)
  ∧ xml_fromstring "<r>a]]>b</r>" = Raise ParseError
  ∧ xml_fromstring "<r>]]&amp;></r>" = OK (mkElement "r" (Some "]]&>") [] None)
  ∧ xml_fromstring " <r ></r > " = OK (mkElement "r" None [] None)
  ∧ xml_fromstring "<r/>x" = Raise ParseError
  ∧ xml_fromstring "<r></s>" = Raise ParseError
  ∧ xml_fromstring "" = Raise ParseError.
Proof. repeat split. Qed.

(** Scenario 1 of the specification. *)
Example extract_sentences_scenario1 :
  extract_sentences xml_fromstring
    "<sentences><s><english>the cat sat</english><czech>kocka sedela</czech><sure>1-1 3-2</sure></s></sentences>"
  = OK ([mkSentencePair ["the"; "cat"; "sat"] ["kocka"; "sedela"]],
        [mkLabeledAlignment [[1; 1]; [3; 2]] []]).
Proof. vm_compute. reflexivity. Qed.

(** Scenario 4 of the specification. *)
Example extract_sentences_scenario4 :
  extract_sentences xml_fromstring
    "<sentences><s><english>Tom & Jerry</english><czech>Tom a Jerry</czech></s></sentences>"
  = OK ([mkSentencePair ["Tom"; "&"; "Jerry"] ["Tom"; "a"; "Jerry"]],
        [mkLabeledAlignment [] []]).
Proof. vm_compute. reflexivity. Qed.

Lemma map_result_OK {A B} (f : A → result B) (l : list A) (ys : list B) :
  map_result f l = OK ys ↔ Forall2 (λ x y, f x = OK y) l ys.
Proof.
  revert ys. induction l as [|x l IH]; intros ys; cbn.
  - split; [intros [= <-]; constructor|by intros ->%Forall2_nil_inv_l].
  - destruct (f x) as [y|e] eqn:Hx; cbn.
    + destruct (map_result f l) as [ys'|e] eqn:Hl; cbn.
      * split.
        -- intros [= <-]. constructor; [done|by apply IH].
        -- intros (y' & ys'' & Hy & Hys & ->)%Forall2_cons_inv_l.
           apply IH in Hys. congruence.
      * split; [done|].
        intros (y' & ys'' & Hy & Hys & ->)%Forall2_cons_inv_l.
        apply IH in Hys. congruence.
    + split; [done|].
      intros (y' & ys'' & Hy & Hys & ->)%Forall2_cons_inv_l. congruence.
Qed.


Lemma extract_loop_map (ss : list Element) (sps : list SentencePair)
    (als : list LabeledAlignment) :
  extract_loop ss sps als
  = do ps <- map_result sentence_of ss; OK (sps ++ ps.*1, als ++ ps.*2).
Proof.
  revert sps als. induction ss as [|s ss IH]; intros sps als; cbn.
  - by rewrite !app_nil_r.
  - destruct (sentence_of s) as [[p a]|e]; cbn; [|done].
    rewrite IH. destruct (map_result sentence_of ss) as [ps|e]; cbn; [|done].
    by rewrite <- !app_assoc.
Qed.

Lemma extract_root_OK (root : Element) (sps : list SentencePair)
    (als : list LabeledAlignment) :
  extract_root root = OK (sps, als)
  ↔ ∃ ps, Forall2 (λ s pa, sentence_of s = OK pa) (findall "s" root) ps
          ∧ sps = ps.*1 ∧ als = ps.*2.
Proof.
  unfold extract_root. rewrite extract_loop_map.
  destruct (map_result sentence_of (findall "s" root)) as [ps|e] eqn:Hm; cbn.
  - apply map_result_OK in Hm. split.
    + intros [= <- <-]. by exists ps.
    + intros (ps' & Hps' & -> & ->). apply map_result_OK in Hm, Hps'.
      congruence.
  - split; [done|]. intros (ps & Hps%map_result_OK & _). congruence.
Qed.

(** C1. An [english] element that is present but empty has the text [None],
    and [extract_sentences] then raises [AttributeError] instead of giving
    an empty token sequence; a missing field gives the empty sequence, and
    so does an empty [sure] field, whose text is tested before it is used. *)
Theorem extract_sentences_empty_text_field :
  extract_sentences xml_fromstring
    "<sentences><s><english></english><czech>ahoj</czech></s></sentences>"
  = Raise AttributeError
  ∧ extract_sentences xml_fromstring
      "<sentences><s><english>hi</english><czech/></s></sentences>"
    = Raise AttributeError
  ∧ extract_sentences xml_fromstring
      "<sentences><s><czech>ahoj</czech></s></sentences>"
    = OK ([mkSentencePair [] ["ahoj"]], [mkLabeledAlignment [] []])
  ∧ extract_sentences xml_fromstring
      "<sentences><s><english>hi</english><czech>ahoj</czech><sure></sure></s></sentences>"
    = OK ([mkSentencePair ["hi"] ["ahoj"]], [mkLabeledAlignment [] []])
  ∧ (∀ name kids tl,
       text_tokens (Some (mkElement name None kids tl)) = Raise AttributeError).
Proof. split_and!; vm_compute; reflexivity. Qed.

(** *** Integer literals *)






Lemma append_empty_r (s : string) : s +:+ EmptyString = s.
Proof. induction s; cbn; congruence. Qed.



(** *** Tokens without whitespace *)







(** *** Pair tokens *)

Lemma str_split_on_cons (sep : ascii) (s : string) :
  ∃ p ps, str_split_on sep s = p :: ps.
Proof.
  induction s as [|c s (p & ps & IH)]; cbn; [by eauto|].
  destruct (Ascii.eqb c sep); [by eauto|]. rewrite IH. by eauto.
Qed.








(** *** Malformed pair tokens *)

Lemma map_result_Raise_inv {A B} (f : A → result B) (l : list A) (e : exn) :
  map_result f l = Raise e → ∃ x, x ∈ l ∧ f x = Raise e.
Proof.
  induction l as [|z l IH]; cbn; [done|].
  destruct (f z) as [y|e'] eqn:Hz; cbn.
  - destruct (map_result f l) as [ys|e'] eqn:Hl; cbn; [done|].
    intros [= ->]. destruct IH as (x & Hx & Hf); [done|].
    exists x. split; [by right|done].
  - intros [= ->]. exists z. split; [by left|done].
Qed.




(** *** Properties that hold for every parser

    [fromstring] stands for the parser of the library, [ET.fromstring];
    nothing is assumed about it. *)

Section AnyParser.

Variable fromstring : string → result Element.

(** C6. When [extract_sentences] returns, the two lists have the same
    length, which is the number of sentence elements of the root, and the
    pair and the alignment at each position are those of the sentence
    element at that position of the document; a sentence element without
    any field gives an empty pair and an empty alignment. *)
Theorem extract_sentences_index_aligned (content : string)
    (sps : list SentencePair) (als : list LabeledAlignment) :
  extract_sentences fromstring content = OK (sps, als) →
  length sps = length als
  ∧ ∃ root,
      fromstring (str_replace "&" "&amp;" content) = OK root
      ∧ length sps = length (findall "s" root)
      ∧ (∀ i s, findall "s" root !! i = Some s →
           ∃ p a, sps !! i = Some p ∧ als !! i = Some a
                  ∧ sentence_of s = OK (p, a))
      ∧ (∀ name txt tl,
           sentence_of (mkElement name txt [] tl)
           = OK (mkSentencePair [] [], mkLabeledAlignment [] [])).
Proof.
  unfold extract_sentences.
  destruct (fromstring _) as [root|e] eqn:Hroot; cbn; [|done].
  intros (ps & Hps & -> & ->)%extract_root_OK.
  split; [by rewrite !length_fmap|].
  exists root. split_and!; [done| | |done].
  - rewrite length_fmap. symmetry. by eapply Forall2_length.
  - intros i s Hs.
    destruct (Forall2_lookup_l _ _ _ _ _ Hps Hs) as ([p a] & Hpa & Hsent).
    exists p, a. rewrite !list_lookup_fmap, Hpa. done.
Qed.


End AnyParser.

Lemma extract_sentences_index_aligned_witness :
  length [mkSentencePair ["a"] ["b"]; mkSentencePair [] []]
  = length [mkLabeledAlignment [[1; 1]] []; mkLabeledAlignment [] []]
  ∧ ∃ root,
      xml_fromstring (str_replace "&" "&amp;"
        "<r><s><english>a</english><czech>b</czech><sure>1-1</sure></s><x/><s/></r>")
      = OK root
      ∧ length [mkSentencePair ["a"] ["b"]; mkSentencePair [] []]
        = length (findall "s" root)
      ∧ (∀ i s, findall "s" root !! i = Some s →
           ∃ p a, [mkSentencePair ["a"] ["b"]; mkSentencePair [] []] !! i = Some p
                  ∧ [mkLabeledAlignment [[1; 1]] []; mkLabeledAlignment [] []] !! i = Some a
                  ∧ sentence_of s = OK (p, a))
      ∧ (∀ name txt tl,
           sentence_of (mkElement name txt [] tl)
           = OK (mkSentencePair [] [], mkLabeledAlignment [] [])).
Proof.
  apply (extract_sentences_index_aligned xml_fromstring
    "<r><s><english>a</english><czech>b</czech><sure>1-1</sure></s><x/><s/></r>").
  vm_compute. reflexivity.
Defined.



(** *** Escaped ampersands *)






Lemma end_tag_Some (s r : string) :
  end_tag s = Some r → s = String "<" (String "/" r).
Proof.
  destruct s as [|c [|c' s]]; try done;
    destruct c as [[] [] [] [] [] [] [] []]; try done;
    destruct c' as [[] [] [] [] [] [] [] []]; try done.
  by intros [= ->].
Qed.

Lemma tag_end_of_TagOpen (s r : string) :
  tag_end_of s = TagOpen r → s = String ">" r.
Proof.
  destruct s as [|c s]; [done|].
  destruct c as [[] [] [] [] [] [] [] []]; try done.
  - destruct s as [|c' s]; [done|].
    destruct c' as [[] [] [] [] [] [] [] []]; done.
  - by intros [= ->].
Qed.

Lemma tag_end_of_TagEmpty (s r : string) :
  tag_end_of s = TagEmpty r → s = String "/" (String ">" r).
Proof.
  destruct s as [|c s]; [done|].
  destruct c as [[] [] [] [] [] [] [] []]; try done.
  destruct s as [|c' s]; [done|].
  destruct c' as [[] [] [] [] [] [] [] []]; try done.
  by intros [= ->].
Qed.








(** *** The fuel of the parser is never used up *)

Lemma skip_ws_length (s : string) :
  (String.length (skip_ws s) ≤ String.length s)%nat.
Proof.
  induction s as [|c s IH]; cbn; [done|]. destruct (xml_space c); cbn; lia.
Qed.

Lemma take_name_length (s n r : string) :
  take_name s = (n, r) →
  String.length s = (String.length n + String.length r)%nat.
Proof.
  revert n r. induction s as [|c s IH]; intros n r; cbn.
  - by intros [= <- <-].
  - destruct (name_char c).
    + destruct (take_name s) as [n' r'] eqn:Hs. intros [= <- <-]. cbn.
      by rewrite (IH n' r').
    + by intros [= <- <-].
Qed.

Lemma parse_name_length (s n r : string) :
  parse_name s = OK (n, r) → (String.length r < String.length s)%nat.
Proof.
  destruct s as [|c s]; [done|]. unfold parse_name.
  destruct (name_start_char c) eqn:Hc; [|done]. intros [= Hs].
  pose proof (take_name_length (String c s) n r Hs) as Hlen.
  revert Hs. cbn [take_name]. unfold name_char. rewrite Hc. cbn [orb].
  destruct (take_name s) as [n' r']. intros [= <- <-]. cbn in Hlen |- *. lia.
Qed.

Lemma parse_chardata_length (s acc t r : string) (st : cd_state) :
  parse_chardata s st acc = OK (t, r) →
  (String.length r ≤ String.length s)%nat.
Proof.
  revert st acc. induction s as [|c s IH]; intros st acc; cbn.
  - destruct st; intros [= <- <-]; cbn; lia.
  - repeat case_match; try done;
      try (intros [= <- <-]; cbn; lia);
      intros ?%IH; lia.
Qed.

Lemma parse_close_length (name s r : string) :
  parse_close name s = OK r → (String.length r < String.length s)%nat.
Proof.
  unfold parse_close.
  destruct (parse_name s) as [[n r']|] eqn:Hn; cbn; [|done].
  apply parse_name_length in Hn. pose proof (skip_ws_length r') as Hws.
  destruct (String.eqb n name); [|done].
  destruct (tag_end_of (skip_ws r')) as [r''| |] eqn:Hend; try done.
  apply tag_end_of_TagOpen in Hend. rewrite Hend in Hws.
  intros [= <-]. cbn in Hws. lia.
Qed.

Lemma parse_nodes_length (fuel : nat) (s r : string) (l : list Element) :
  parse_nodes fuel s = OK (l, r) → (String.length r ≤ String.length s)%nat.
Proof.
  revert s l r. induction fuel as [|fuel IH]; intros s l r; [done|].
  cbn [parse_nodes]. destruct s as [|c s1]; [by intros [= <- <-]|].
  destruct (negb (Ascii.eqb c "<")); [done|].
  destruct (end_tag (String c s1)); [by intros [= <- <-]|].
  destruct (parse_name s1) as [[name s2]|] eqn:Hname; cbn [bind]; [|done].
  apply parse_name_length in Hname. pose proof (skip_ws_length s2) as Hws.
  destruct (tag_end_of (skip_ws s2)) as [s3|s3|] eqn:Hend; [| |done].
  - apply tag_end_of_TagOpen in Hend. rewrite Hend in Hws. cbn in Hws.
    destruct (parse_chardata s3 _ _) as [[txt s4]|] eqn:Htxt; cbn [bind]; [|done].
    apply parse_chardata_length in Htxt.
    destruct (parse_nodes fuel s4) as [[kids s5]|] eqn:Hkids; cbn [bind]; [|done].
    apply IH in Hkids.
    destruct (end_tag s5) as [s6|] eqn:Hs5; [|done].
    apply end_tag_Some in Hs5. subst s5. cbn in Hkids.
    destruct (parse_close name s6) as [s7|] eqn:Hclose; cbn [bind]; [|done].
    apply parse_close_length in Hclose.
    destruct (parse_chardata s7 _ _) as [[tl s8]|] eqn:Htl; cbn [bind]; [|done].
    apply parse_chardata_length in Htl.
    destruct (parse_nodes fuel s8) as [[sibs s9]|] eqn:Hsibs; cbn [bind]; [|done].
    apply IH in Hsibs. intros [= <- <-]. cbn. lia.
  - apply tag_end_of_TagEmpty in Hend. rewrite Hend in Hws. cbn in Hws.
    destruct (parse_chardata s3 _ _) as [[tl s4]|] eqn:Htl; cbn [bind]; [|done].
    apply parse_chardata_length in Htl.
    destruct (parse_nodes fuel s4) as [[sibs s5]|] eqn:Hsibs; cbn [bind]; [|done].
    apply IH in Hsibs. intros [= <- <-]. cbn. lia.
Qed.

(** Any fuel above the length of the input gives the same result. *)
Lemma parse_nodes_fuel (fuel fuel' : nat) (s : string) :
  (String.length s < fuel)%nat → (String.length s < fuel')%nat →
  parse_nodes fuel s = parse_nodes fuel' s.
Proof.
  revert fuel' s. induction fuel as [|fuel IH]; intros fuel' s Hf Hf'; [lia|].
  destruct fuel' as [|fuel']; [lia|].
  cbn [parse_nodes]. destruct s as [|c s1]; [done|]. cbn in Hf, Hf'.
  destruct (negb (Ascii.eqb c "<")); [done|].
  destruct (end_tag (String c s1)); [done|].
  destruct (parse_name s1) as [[name s2]|] eqn:Hname; cbn [bind]; [|done].
  apply parse_name_length in Hname. pose proof (skip_ws_length s2) as Hws.
  destruct (tag_end_of (skip_ws s2)) as [s3|s3|] eqn:Hend; [| |done].
  - apply tag_end_of_TagOpen in Hend. rewrite Hend in Hws. cbn in Hws.
    destruct (parse_chardata s3 _ _) as [[txt s4]|] eqn:Htxt; cbn [bind]; [|done].
    apply parse_chardata_length in Htxt.
    rewrite (IH fuel' s4) by lia.
    destruct (parse_nodes fuel' s4) as [[kids s5]|] eqn:Hkids; cbn [bind]; [|done].
    apply parse_nodes_length in Hkids.
    destruct (end_tag s5) as [s6|] eqn:Hs5; [|done].
    apply end_tag_Some in Hs5. subst s5. cbn in Hkids.
    destruct (parse_close name s6) as [s7|] eqn:Hclose; cbn [bind]; [|done].
    apply parse_close_length in Hclose.
    destruct (parse_chardata s7 _ _) as [[tl s8]|] eqn:Htl; cbn [bind]; [|done].
    apply parse_chardata_length in Htl.
    by rewrite (IH fuel' s8) by lia.
  - apply tag_end_of_TagEmpty in Hend. rewrite Hend in Hws. cbn in Hws.
    destruct (parse_chardata s3 _ _) as [[tl s4]|] eqn:Htl; cbn [bind]; [|done].
    apply parse_chardata_length in Htl.
    by rewrite (IH fuel' s4) by lia.
Qed.

(* ===================================================================== *)
(** * Further properties of the three functions *)
(* ===================================================================== *)

(** ** The tokenizer and the vocabulary together *)

Lemma encode_app (d : gmap string Z) (l1 l2 : list string) :
  encode d (l1 ++ l2) = encode d l1 ++ encode d l2.
Proof. unfold encode. by rewrite filter_app, fmap_app. Qed.

Lemma encode_elem (d : gmap string Z) (tokens : list string) (i : Z) :
  i ∈ encode d tokens → ∃ token, token ∈ tokens ∧ d !! token = Some i.
Proof.
  unfold encode. intros (token & -> & Hin)%list_elem_of_fmap.
  apply list_elem_of_filter in Hin as [Hk Hin].
  unfold known in Hk. apply bool_decide_eq_true in Hk as [j Hj].
  exists token. by rewrite Hj.
Qed.

Lemma encode_all_known (d : gmap string Z) (tokens : list string) :
  Forall (λ token, is_Some (d !! token)) tokens →
  length (encode d tokens) = length tokens.
Proof.
  intros Hall. unfold encode. rewrite length_fmap. f_equal.
  induction Hall as [|token tokens Htoken Hall IH]; [done|].
  rewrite filter_cons, decide_True; [by rewrite IH|].
  unfold known. by apply bool_decide_eq_true.
Qed.

Lemma filter_ext_Forall {A} (P Q : A → Prop) `{∀ x, Decision (P x)}
    `{∀ x, Decision (Q x)} (l : list A) :
  Forall (λ x, P x ↔ Q x) l → filter P l = filter Q l.
Proof.
  induction 1 as [|x l Hx Hl IH]; [done|].
  rewrite !filter_cons, IH. destruct (decide (P x)), (decide (Q x)); tauto.
Qed.

Lemma filter_length_mono {A} (P Q : A → Prop) `{∀ x, Decision (P x)}
    `{∀ x, Decision (Q x)} (l : list A) :
  (∀ x, P x → Q x) → (length (filter P l) ≤ length (filter Q l))%nat.
Proof.
  intros HPQ. induction l as [|x l IH]; [done|].
  rewrite !filter_cons. destruct (decide (P x)), (decide (Q x)); cbn; try lia.
  naive_solver.
Qed.

(** X1. Tokenizing a corpus made of two parts gives the tokenized first
    part followed by the tokenized second part. *)
Theorem tokenize_sents_app (sps1 sps2 : list SentencePair)
    (sd td : gmap string Z) :
  ∃ out1 out2,
    tokenize_sents sps1 sd td = OK out1
    ∧ tokenize_sents sps2 sd td = OK out2
    ∧ tokenize_sents (sps1 ++ sps2) sd td = OK (out1 ++ out2).
Proof.
  eexists _, _. rewrite !tokenize_sents_spec.
  split_and!; [done..|]. by rewrite filter_app, fmap_app.
Qed.

Lemma token_to_index_lookup_Some (tokens : list string) (freq_cutoff : option Z)
    (token : string) (i : Z) :
  token_to_index tokens freq_cutoff !! token = Some i →
  ∃ n : nat, i = Z.of_nat n ∧ sorted_tokens_of tokens !! n = Some token.
Proof.
  rewrite token_to_index_unfold.
  intros (n & -> & Hn%kept_tokens_lookup)%index_dict_lookup_Some;
    [|apply kept_tokens_NoDup].
  by exists n.
Qed.

Lemma token_to_index_None_lookup (tokens : list string) (token : string) :
  is_Some (token_to_index tokens None !! token) ↔ token ∈ tokens.
Proof.
  rewrite token_to_index_unfold, index_dict_lookup by apply sorted_tokens_of_NoDup.
  rewrite <- sorted_tokens_of_elem. split.
  - intros [i Hi]. destruct (first_index _ _) as [n|] eqn:Hn; [|done].
    eapply list_elem_of_lookup_2, first_index_lookup, Hn.
  - intros [n ->]%first_index_is_Some. by eexists.
Qed.

Lemma encode_in_range (d : gmap string Z) (tokens : list string) :
  dense d → Forall (λ i, 0 ≤ i < Z.of_nat (size d)) (encode d tokens).
Proof.
  intros [Hd _]. apply Forall_forall. intros i (token & _ & Hi)%encode_elem.
  apply Hd. by exists token.
Qed.

(** X2. Whatever corpus and cutoff the two vocabularies were built from,
    every index that [tokenize_sents] emits with them is a position of its
    vocabulary: at least 0 and below the size of the map. *)
Theorem tokenize_sents_indices_in_range (corpus sps : list SentencePair)
    (freq_cutoff : option Z) :
  ∃ out,
    tokenize_sents sps (get_token_to_index corpus freq_cutoff).1
                       (get_token_to_index corpus freq_cutoff).2 = OK out
    ∧ Forall (λ t,
        Forall (λ i, 0 ≤ i < Z.of_nat (size (get_token_to_index corpus freq_cutoff).1))
          (source_tokens t)
        ∧ Forall (λ i, 0 ≤ i < Z.of_nat (size (get_token_to_index corpus freq_cutoff).2))
          (target_tokens t)) out.
Proof.
  eexists. split; [apply tokenize_sents_spec|].
  apply Forall_fmap, Forall_forall. intros p _. cbn.
  split; apply encode_in_range; unfold get_token_to_index; cbn [fst snd];
    apply token_to_index_dense.
Qed.

Lemma all_known_same_corpus (side : SentencePair → list string)
    (sps : list SentencePair) (p : SentencePair) :
  p ∈ sps →
  Forall (λ token, is_Some (token_to_index (extend_all side sps) None !! token))
    (side p).
Proof.
  intros Hp. apply Forall_forall. intros token Htoken.
  apply token_to_index_None_lookup. rewrite extend_all_concat.
  apply list_elem_of_join. exists (side p). split; [done|].
  apply list_elem_of_fmap. by exists p.
Qed.

Lemma existsb_known_all (d : gmap string Z) (tokens : list string) :
  Forall (λ token, is_Some (d !! token)) tokens →
  existsb (known d) tokens = true ↔ tokens ≠ [].
Proof.
  intros Hall. destruct Hall as [|token tokens Htoken Hall]; cbn; [done|].
  unfold known at 1. rewrite bool_decide_eq_true_2 by done. done.
Qed.

(** X3. With the two vocabularies built from the corpus itself and without
    a cutoff, tokenizing the corpus loses no token: the pairs kept are the
    pairs with a non-empty source and a non-empty target, in order, and
    each tokenized side is as long as the side it comes from. *)
Theorem tokenize_sents_own_vocabulary (sps : list SentencePair) :
  ∃ out,
    tokenize_sents sps (get_token_to_index sps None).1
                       (get_token_to_index sps None).2 = OK out
    ∧ Forall2 (λ p t,
         length (source_tokens t) = length (source p)
         ∧ length (target_tokens t) = length (target p))
       (filter (λ p, source p ≠ [] ∧ target p ≠ []) sps) out.
Proof.
  eexists. split; [apply tokenize_sents_spec|].
  unfold get_token_to_index. cbn [fst snd].
  set (sd := token_to_index (extend_all source sps) None).
  set (td := token_to_index (extend_all target sps) None).
  assert (filter (λ p, retained sd td p = true) sps
          = filter (λ p, source p ≠ [] ∧ target p ≠ []) sps) as ->.
  { apply filter_ext_Forall, Forall_forall. intros p Hp. unfold retained.
    rewrite andb_true_iff.
    rewrite !existsb_known_all by by apply all_known_same_corpus. done. }
  apply Forall2_fmap_r, Forall_Forall2_diag, Forall_forall.
  intros p [_ Hp]%list_elem_of_filter. cbn.
  split; apply encode_all_known; by apply all_known_same_corpus.
Qed.

(** X5. Without a cutoff a token has an index in the source map exactly
    when it occurs in the source side of some pair, and likewise for the
    target map. *)
Theorem get_token_to_index_domain (sps : list SentencePair) (token : string) :
  (is_Some ((get_token_to_index sps None).1 !! token)
     ↔ ∃ p, p ∈ sps ∧ token ∈ source p)
  ∧ (is_Some ((get_token_to_index sps None).2 !! token)
     ↔ ∃ p, p ∈ sps ∧ token ∈ target p).
Proof.
  unfold get_token_to_index. cbn [fst snd].
  rewrite !token_to_index_None_lookup, !extend_all_concat.
  split; rewrite list_elem_of_join; split.
  - intros (l & Htoken & (p & -> & Hp)%list_elem_of_fmap). by exists p.
  - intros (p & Hp & Htoken). exists (source p). split; [done|].
    apply list_elem_of_fmap. by exists p.
  - intros (l & Htoken & (p & -> & Hp)%list_elem_of_fmap). by exists p.
  - intros (p & Hp & Htoken). exists (target p). split; [done|].
    apply list_elem_of_fmap. by exists p.
Qed.



Lemma kept_tokens_take (tokens : list string) (freq_cutoff : option Z) :
  ∃ m, match freq_cutoff with
       | Some n => slice_to (sorted_tokens_of tokens) n
       | None => sorted_tokens_of tokens
       end = take m (sorted_tokens_of tokens).
Proof.
  destruct freq_cutoff as [n|].
  - unfold slice_to. destruct (0 <=? n); by eexists.
  - exists (length (sorted_tokens_of tokens)). by rewrite firstn_all.
Qed.

Lemma token_to_index_most_frequent (tokens : list string)
    (freq_cutoff : option Z) (a b : string) (i : Z) :
  token_to_index tokens freq_cutoff !! a = Some i →
  b ∈ tokens →
  token_to_index tokens freq_cutoff !! b = None →
  occurrences b tokens ≤ occurrences a tokens.
Proof.
  rewrite token_to_index_unfold.
  pose proof (kept_tokens_NoDup tokens freq_cutoff) as Hnd.
  destruct (kept_tokens_take tokens freq_cutoff) as [m Hm].
  rewrite Hm in *.
  intros (n & -> & [Hn Hlt]%lookup_take_Some)%index_dict_lookup_Some; [|done].
  intros Hb%sorted_tokens_of_elem Hnone.
  apply list_elem_of_lookup in Hb as [k Hk].
  destruct (decide (k < m)%nat) as [Hkm|Hkm].
  - assert (index_dict (take m (sorted_tokens_of tokens)) !! b
            = Some (Z.of_nat k)) as Hsome.
    { apply index_dict_lookup_Some; [done|]. exists k. split; [done|].
      by apply lookup_take_Some. }
    congruence.
  - apply (StronglySorted_lookup_lt _ _ n k a b
             (sorted_tokens_of_sorted tokens) Hn Hk). lia.
Qed.

(** X6. A cutoff keeps the most frequent tokens: a token that received an
    index occurs at least as often in its language as any token of the
    corpus that received none. *)
Theorem get_token_to_index_most_frequent (sps : list SentencePair)
    (freq_cutoff : option Z) (tokens : list string) (d : gmap string Z)
    (a b : string) (i : Z) :
  (tokens, d) ∈ [ (mjoin (source <$> sps), (get_token_to_index sps freq_cutoff).1);
                  (mjoin (target <$> sps), (get_token_to_index sps freq_cutoff).2) ] →
  d !! a = Some i → b ∈ tokens → d !! b = None →
  occurrences b tokens ≤ occurrences a tokens.
Proof.
  unfold get_token_to_index. cbn [fst snd]. rewrite !extend_all_concat.
  intros [[= -> ->]|[[= -> ->]|[]%elem_of_nil]%elem_of_cons]%elem_of_cons;
    apply token_to_index_most_frequent.
Qed.

Lemma get_token_to_index_most_frequent_witness :
  occurrences "b" ["b"; "a"; "c"; "a"; "c"; "d"]
  ≤ occurrences "a" ["b"; "a"; "c"; "a"; "c"; "d"].
Proof.
  apply (get_token_to_index_most_frequent
           [mkSentencePair ["b"; "a"; "c"; "a"] []; mkSentencePair ["c"; "d"] []]
           (Some 2) ["b"; "a"; "c"; "a"; "c"; "d"]
           {["a" := 0; "c" := 1]} "a" "b" 0).
  - apply elem_of_cons. left. vm_compute. reflexivity.
  - vm_compute. reflexivity.
  - apply elem_of_cons. left. reflexivity.
  - vm_compute. reflexivity.
Defined.

Lemma token_to_index_cutoff_subseteq (tokens : list string) (n : Z) :
  token_to_index tokens (Some n) ⊆ token_to_index tokens None.
Proof.
  apply map_subseteq_spec. intros token i.
  intros (k & -> & Hk)%token_to_index_lookup_Some.
  rewrite token_to_index_unfold.
  apply index_dict_lookup_Some; [apply sorted_tokens_of_NoDup|]. by exists k.
Qed.

(** X7. A cutoff removes tokens and renumbers none: each map built with a
    cutoff, of any sign, is a part of the map built without one, so a token
    that keeps an index keeps the same index. *)
Theorem get_token_to_index_cutoff_subseteq (sps : list SentencePair) (n : Z) :
  (get_token_to_index sps (Some n)).1 ⊆ (get_token_to_index sps None).1
  ∧ (get_token_to_index sps (Some n)).2 ⊆ (get_token_to_index sps None).2.
Proof. split; apply token_to_index_cutoff_subseteq. Qed.

Lemma token_to_index_cutoff_size (tokens : list string) (n : Z) :
  0 ≤ n →
  Z.of_nat (size (token_to_index tokens (Some n)))
  = Z.min n (Z.of_nat (length (remove_dups tokens))).
Proof.
  intros Hn. rewrite token_to_index_unfold.
  rewrite index_dict_size by apply (kept_tokens_NoDup tokens (Some n)).
  unfold slice_to. rewrite (proj2 (Z.leb_le 0 n)) by done.
  rewrite length_take, sorted_tokens_of_length. lia.
Qed.

(** X8. With a cutoff that is not negative, the size of each map is the
    smaller of the cutoff and the number of distinct tokens of its
    language. *)
Theorem get_token_to_index_cutoff_size (sps : list SentencePair) (n : Z) :
  0 ≤ n →
  Z.of_nat (size (get_token_to_index sps (Some n)).1)
  = Z.min n (Z.of_nat (length (remove_dups (mjoin (source <$> sps)))))
  ∧ Z.of_nat (size (get_token_to_index sps (Some n)).2)
    = Z.min n (Z.of_nat (length (remove_dups (mjoin (target <$> sps))))).
Proof.
  intros Hn. unfold get_token_to_index. cbn [fst snd].
  rewrite <- !extend_all_concat. split; by apply token_to_index_cutoff_size.
Qed.

Lemma get_token_to_index_cutoff_size_witness :
  Z.of_nat (size (get_token_to_index
                    [mkSentencePair ["a"; "a"; "b"; "c"] ["x"]] (Some 2)).1)
  = Z.min 2 (Z.of_nat (length (remove_dups
      (mjoin (source <$> [mkSentencePair ["a"; "a"; "b"; "c"] ["x"]])))))
  ∧ Z.of_nat (size (get_token_to_index
                      [mkSentencePair ["a"; "a"; "b"; "c"] ["x"]] (Some 2)).2)
    = Z.min 2 (Z.of_nat (length (remove_dups
        (mjoin (target <$> [mkSentencePair ["a"; "a"; "b"; "c"] ["x"]]))))).
Proof.
  apply (get_token_to_index_cutoff_size
           [mkSentencePair ["a"; "a"; "b"; "c"] ["x"]] 2).
  lia.
Defined.

Lemma token_to_index_large_cutoff (tokens : list string) (n : Z) :
  Z.of_nat (length (remove_dups tokens)) ≤ n →
  token_to_index tokens (Some n) = token_to_index tokens None.
Proof.
  intros Hn. rewrite !token_to_index_unfold. f_equal.
  unfold slice_to. rewrite (proj2 (Z.leb_le 0 n)) by lia.
  apply take_ge. rewrite sorted_tokens_of_length. lia.
Qed.

(** X9. A cutoff at least as large as the number of distinct tokens of
    both languages changes nothing: the maps are those built without a
    cutoff. *)
Theorem get_token_to_index_large_cutoff (sps : list SentencePair) (n : Z) :
  Z.of_nat (length (remove_dups (mjoin (source <$> sps)))) ≤ n →
  Z.of_nat (length (remove_dups (mjoin (target <$> sps)))) ≤ n →
  get_token_to_index sps (Some n) = get_token_to_index sps None.
Proof.
  intros Hs Ht. unfold get_token_to_index. rewrite !extend_all_concat.
  by rewrite !token_to_index_large_cutoff.
Qed.

Lemma get_token_to_index_large_cutoff_witness :
  get_token_to_index [mkSentencePair ["a"; "a"; "b"; "c"] ["x"]] (Some 3)
  = get_token_to_index [mkSentencePair ["a"; "a"; "b"; "c"] ["x"]] None.
Proof.
  apply (get_token_to_index_large_cutoff
           [mkSentencePair ["a"; "a"; "b"; "c"] ["x"]] 3).
  - vm_compute. discriminate.
  - vm_compute. discriminate.
Defined.

Lemma retained_mono (sd sd' td td' : gmap string Z) (p : SentencePair) :
  sd ⊆ sd' → td ⊆ td' → retained sd td p = true → retained sd' td' p = true.
Proof.
  intros Hs Ht. unfold retained. rewrite !andb_true_iff, !existsb_exists.
  assert (∀ (d d' : gmap string Z) x, d ⊆ d' → known d x = true → known d' x = true)
    as Hk.
  { intros d d' x Hd. unfold known. rewrite !bool_decide_eq_true.
    intros [i Hi]. exists i. by eapply lookup_weaken. }
  intros [(x & Hx & Hkx) (y & Hy & Hky)]. split; eauto.
Qed.

(** X10. A cutoff never lets more pairs through: with the vocabularies of
    a corpus cut off at [n], [tokenize_sents] returns at most as many pairs
    as with the vocabularies of the same corpus without a cutoff. *)
Theorem tokenize_sents_cutoff_keeps_fewer (corpus sps : list SentencePair)
    (n : Z) :
  ∃ out_cut out_full,
    tokenize_sents sps (get_token_to_index corpus (Some n)).1
                       (get_token_to_index corpus (Some n)).2 = OK out_cut
    ∧ tokenize_sents sps (get_token_to_index corpus None).1
                         (get_token_to_index corpus None).2 = OK out_full
    ∧ (length out_cut ≤ length out_full)%nat.
Proof.
  eexists _, _. rewrite !tokenize_sents_spec. split_and!; [done..|].
  rewrite !length_fmap. apply filter_length_mono. intros p.
  apply retained_mono; apply token_to_index_cutoff_subseteq.
Qed.

(** ** The corpus reader: what it accepts and how it fails *)

Lemma map_result_is_OK {A B} (f : A → result B) (l : list A) :
  (∃ ys, map_result f l = OK ys) ↔ Forall (λ x, ∃ y, f x = OK y) l.
Proof.
  induction l as [|x l IH]; cbn.
  - split; [constructor|by eauto].
  - rewrite Forall_cons. destruct (f x) as [y|e]; cbn.
    + rewrite <- IH. destruct (map_result f l) as [ys|e]; cbn.
      * split; [by eauto|by eauto].
      * split; [by intros [? ?]|by intros [_ [? ?]]].
    + split; [by intros [? ?]|by intros [[? ?] _]].
Qed.

Lemma text_tokens_is_OK (e : option Element) :
  (∃ ws, text_tokens e = OK ws) ↔ text_present e.
Proof.
  unfold text_tokens, text_present. destruct e as [el|]; [|by split; eauto].
  destruct (text el) as [t|] eqn:Ht.
  - split; [|by eauto]. intros _ el' [= <-]. by rewrite Ht.
  - split; [by intros [? ?]|]. intros H. by destruct (H el).
Qed.

Lemma parse_pair_is_OK (token : string) :
  (∃ tup, parse_pair token = OK tup)
  ↔ ∀ piece, piece ∈ str_split_on "-" token → ∃ z, py_int piece = OK z.
Proof. unfold parse_pair. by rewrite map_result_is_OK, Forall_forall. Qed.

Lemma alignment_pairs_is_OK (e : option Element) :
  (∃ l, alignment_pairs e = OK l) ↔ pairs_readable e.
Proof.
  unfold alignment_pairs, pairs_readable.
  destruct e as [el|]; [|by split; eauto].
  destruct (text el) as [[|c t]|] eqn:Ht.
  - split; [|by eauto]. intros _ el' t' token piece [= <-].
    rewrite Ht. intros [= <-]. by intros ?%elem_of_nil.
  - rewrite map_result_is_OK, Forall_forall. split.
    + intros H el' t' token piece [= <-]. rewrite Ht. intros [= <-] Htoken.
      by apply parse_pair_is_OK, H.
    + intros H token Htoken. apply parse_pair_is_OK. intros piece Hpiece.
      by apply (H el (String c t) token piece).
  - split; [|by eauto]. intros _ el' t' token piece [= <-]. by rewrite Ht.
Qed.

Lemma sentence_of_is_OK (s : Element) :
  (∃ pa, sentence_of s = OK pa) ↔ accepted s.
Proof.
  unfold accepted.
  rewrite <- !text_tokens_is_OK, <- !alignment_pairs_is_OK. unfold sentence_of.
  destruct (text_tokens (find "english" s)) as [en|]; cbn;
    [|split; [by intros [? ?]|by intros [[? ?] _]]].
  destruct (text_tokens (find "czech" s)) as [cz|]; cbn;
    [|split; [by intros [? ?]|by intros (_ & [? ?] & _)]].
  destruct (alignment_pairs (find "sure" s)) as [su|]; cbn;
    [|split; [by intros [? ?]|by intros (_ & _ & [? ?] & _)]].
  destruct (alignment_pairs (find "possible" s)) as [po|]; cbn;
    [|split; [by intros [? ?]|by intros (_ & _ & _ & [? ?])]].
  split; [|by eauto]. intros _. split_and!; by eauto.
Qed.

Lemma extract_root_is_OK (root : Element) :
  (∃ r, extract_root root = OK r) ↔ Forall accepted (findall "s" root).
Proof.
  unfold extract_root. rewrite extract_loop_map.
  rewrite <- (Forall_iff _ _ _ sentence_of_is_OK), <- map_result_is_OK.
  destruct (map_result sentence_of (findall "s" root)) as [ps|e]; cbn.
  - split; by eauto.
  - split; by intros [? ?].
Qed.

Lemma text_tokens_Raise (e : option Element) (err : exn) :
  text_tokens e = Raise err →
  err = AttributeError ∧ ∃ el, e = Some el ∧ text el = None.
Proof.
  unfold text_tokens. destruct e as [el|]; [|done].
  destruct (text el) eqn:Ht; [done|]. intros [= <-]. by eauto.
Qed.

Lemma alignment_pairs_Raise_inv (e : option Element) (err : exn) :
  alignment_pairs e = Raise err →
  ∃ el t token piece,
    e = Some el ∧ text el = Some t
    ∧ token ∈ str_split (str_strip t) ∧ piece ∈ str_split_on "-" token
    ∧ py_int piece = Raise err.
Proof.
  unfold alignment_pairs. destruct e as [el|]; [|done].
  destruct (text el) as [[|c t]|] eqn:Ht; [done| |done].
  intros (token & Htoken & Hpair)%map_result_Raise_inv.
  apply map_result_Raise_inv in Hpair as (piece & Hpiece & Hint).
  by exists el, (String c t), token, piece.
Qed.

Lemma sentence_of_Raise_inv (s : Element) (e : exn) :
  sentence_of s = Raise e → failure_cause s e.
Proof.
  unfold sentence_of, failure_cause.
  destruct (text_tokens (find "english" s)) as [en|err] eqn:Hen; cbn.
  2: { intros [= <-]. apply text_tokens_Raise in Hen as (-> & el & Hel & Ht).
       left. split; [done|]. exists "english", el. by eauto. }
  destruct (text_tokens (find "czech" s)) as [cz|err] eqn:Hcz; cbn.
  2: { intros [= <-]. apply text_tokens_Raise in Hcz as (-> & el & Hel & Ht).
       left. split; [done|]. exists "czech", el. by eauto. }
  destruct (alignment_pairs (find "sure" s)) as [su|err] eqn:Hsu; cbn.
  2: { intros [= <-].
       apply alignment_pairs_Raise_inv in Hsu as (el & t & token & piece & H).
       right. exists "sure", el, t, token, piece.
       destruct H as (? & ? & ? & ? & ?). split_and!; auto. }
  destruct (alignment_pairs (find "possible" s)) as [po|err] eqn:Hpo; cbn; [done|].
  intros [= <-].
  apply alignment_pairs_Raise_inv in Hpo as (el & t & token & piece & H).
  right. exists "possible", el, t, token, piece.
  destruct H as (? & ? & ? & ? & ?). split_and!; auto.
Qed.

Lemma map_result_app {A B} (f : A → result B) (l1 l2 : list A) :
  map_result f (l1 ++ l2)
  = do ys1 <- map_result f l1; do ys2 <- map_result f l2; OK (ys1 ++ ys2).
Proof.
  induction l1 as [|x l1 IH]; cbn.
  - by destruct (map_result f l2).
  - destruct (f x) as [y|e]; cbn; [|done]. rewrite IH.
    destruct (map_result f l1) as [ys1|e]; cbn; [|done].
    by destruct (map_result f l2).
Qed.

Section AnyParserMore.

Variable fromstring : string → result Element.

(** X11. [extract_sentences] returns exactly when the content parses and
    every sentence element of the root can be read: each of its text fields
    that is present has a text, and every piece, between hyphens, of every
    token of its alignment fields is read by [int]. *)
Theorem extract_sentences_accepts (content : string) :
  (∃ r, extract_sentences fromstring content = OK r)
  ↔ ∃ root, fromstring (str_replace "&" "&amp;" content) = OK root
            ∧ Forall accepted (findall "s" root).
Proof.
  unfold extract_sentences.
  destruct (fromstring _) as [root|e]; cbn.
  - rewrite extract_root_is_OK. split.
    + intros Hacc. by exists root.
    + by intros (root' & [= <-] & Hacc).
  - split; [by intros [? ?]|by intros (? & ? & _)].
Qed.

(** X12. When [extract_sentences] raises, either the parser raised that
    exception, or a sentence element of the root is the cause: one of its
    text fields is present without text and the exception is
    [AttributeError], or [int] raises the exception on a piece of a token
    of one of its alignment fields. *)
Theorem extract_sentences_failure_cause (content : string) (e : exn) :
  extract_sentences fromstring content = Raise e →
  fromstring (str_replace "&" "&amp;" content) = Raise e
  ∨ ∃ root s, fromstring (str_replace "&" "&amp;" content) = OK root
              ∧ s ∈ findall "s" root ∧ failure_cause s e.
Proof.
  unfold extract_sentences.
  destruct (fromstring _) as [root|e']; cbn; [|by intros [= ->]; left].
  unfold extract_root. rewrite extract_loop_map.
  destruct (map_result sentence_of (findall "s" root)) as [ps|e'] eqn:Hm; cbn;
    [done|].
  intros [= <-]. apply map_result_Raise_inv in Hm as (s & Hs & Hsent).
  right. exists root, s. split_and!; [done..|]. by apply sentence_of_Raise_inv.
Qed.

End AnyParserMore.

(** X18. The reader works sentence by sentence: for a root whose children
    are two lists one after the other, the result is the result for the
    first list followed by the result for the second, and the first
    exception met is the one raised. *)
Theorem extract_root_app (name : string) (txt tl : option string)
    (kids1 kids2 : list Element) :
  extract_root (mkElement name txt (kids1 ++ kids2) tl)
  = do r1 <- extract_root (mkElement name txt kids1 tl);
    do r2 <- extract_root (mkElement name txt kids2 tl);
    OK (r1.1 ++ r2.1, r1.2 ++ r2.2).
Proof.
  unfold extract_root, findall. cbn [children].
  rewrite filter_app, !extract_loop_map, map_result_app.
  destruct (map_result sentence_of (filter _ kids1)) as [ps1|e]; cbn; [|done].
  destruct (map_result sentence_of (filter _ kids2)) as [ps2|e]; cbn; [|done].
  by rewrite !fmap_app.
Qed.

Lemma extract_sentences_failure_cause_witness :
  xml_fromstring (str_replace "&" "&amp;" "<r><s><english/></s></r>")
  = Raise AttributeError
  ∨ ∃ root s, xml_fromstring (str_replace "&" "&amp;" "<r><s><english/></s></r>")
              = OK root
              ∧ s ∈ findall "s" root ∧ failure_cause s AttributeError.
Proof.
  apply (extract_sentences_failure_cause xml_fromstring
           "<r><s><english/></s></r>" AttributeError).
  vm_compute. reflexivity.
Defined.

(** ** The corpus reader: what it stores *)

Lemma digit_value_range (c : ascii) (d : Z) :
  digit_value c = Some d → 0 ≤ d ≤ 9.
Proof.
  unfold digit_value.
  destruct ((48 <=? N_of_ascii c)%N && (N_of_ascii c <=? 57)%N) eqn:Hc; [|done].
  apply andb_true_iff in Hc as [H1%N.leb_le H2%N.leb_le]. intros [= <-]. lia.
Qed.

Lemma scan_digits_nonneg (s r : string) (v v' : Z) (n n' : nat) (b : bool) :
  0 ≤ v → scan_digits s v n b = Some (v', n', r) → 0 ≤ v'.
Proof.
  revert v n b. induction s as [|c s IH]; intros v n b Hv; cbn.
  - destruct b; [done|]. by intros [= <- _ _].
  - destruct (digit_value c) as [d|] eqn:Hd.
    + apply digit_value_range in Hd. apply IH. lia.
    + destruct (Ascii.eqb c "_"), b; try done; [by apply IH|].
      by intros [= <- _ _].
Qed.

Lemma int_lstrip_count (c : ascii) (s : string) :
  count_char c s = 0%nat → count_char c (int_lstrip s) = 0%nat.
Proof.
  induction s as [|c' s IH]; cbn; [done|].
  destruct (int_isspace c'); [|done]. intros H. apply IH. lia.
Qed.

Lemma sign_of_no_minus (c : ascii) (r : string) :
  c ≠ "-"%char →
  match String c r with
  | String "-" r' => (true, r')
  | String "+" r' => (false, r')
  | _ => (false, String c r)
  end
  = (false, if Ascii.eqb c "+" then r else String c r).
Proof.
  intros Hc. destruct c as [[] [] [] [] [] [] [] []]; try reflexivity.
  by destruct Hc.
Qed.

Lemma py_int_nonneg (s : string) (z : Z) :
  count_char "-" s = 0%nat → py_int s = OK z → 0 ≤ z.
Proof.
  intros Hs%int_lstrip_count. unfold py_int.
  destruct (int_lstrip s) as [|c r]; [done|].
  rewrite sign_of_no_minus.
  2: { intros ->. cbn in Hs. lia. }
  set (body := if Ascii.eqb c "+" then r else String c r). clearbody body.
  destruct body as [|c' body']; [done|].
  destruct (digit_value c'); [|done].
  destruct (scan_digits _ 0 0 false) as [[[value digits] rest]|] eqn:Hscan; [|done].
  apply scan_digits_nonneg in Hscan; [|done].
  destruct (int_max_str_digits <? digits)%nat; [done|].
  destruct (int_lstrip rest); [|done]. by intros [= <-].
Qed.

Lemma str_split_on_pieces (sep : ascii) (s piece : string) :
  piece ∈ str_split_on sep s → count_char sep piece = 0%nat.
Proof.
  revert piece. induction s as [|c s IH]; intros piece; cbn.
  - by intros ->%list_elem_of_singleton.
  - destruct (Ascii.eqb c sep) eqn:Hc.
    + intros [->|H]%elem_of_cons; [done|by apply IH].
    + destruct (str_split_on_cons sep s) as (p & ps & Hs). rewrite Hs in *.
      intros [->|H]%elem_of_cons.
      * cbn. rewrite Hc. apply IH. by left.
      * apply IH. by right.
Qed.

Lemma str_split_on_length (sep : ascii) (s : string) :
  length (str_split_on sep s) = S (count_char sep s).
Proof.
  induction s as [|c s IH]; cbn; [done|].
  destruct (Ascii.eqb c sep); cbn; [by rewrite IH|].
  destruct (str_split_on_cons sep s) as (p & ps & Hs). rewrite Hs in *. done.
Qed.

Lemma map_result_length {A B} (f : A → result B) (l : list A) (ys : list B) :
  map_result f l = OK ys → length ys = length l.
Proof. intros H%map_result_OK. symmetry. by eapply Forall2_length. Qed.

Lemma parse_pair_nonneg (token : string) (tup : list Z) :
  parse_pair token = OK tup → Forall (λ z, 0 ≤ z) tup.
Proof.
  unfold parse_pair. intros H%map_result_OK.
  apply Forall_forall. intros z Hz.
  apply list_elem_of_lookup in Hz as [i Hi].
  destruct (Forall2_lookup_r _ _ _ _ _ H Hi) as (piece & Hpiece & Hint).
  eapply py_int_nonneg; [|done].
  eapply str_split_on_pieces, list_elem_of_lookup_2, Hpiece.
Qed.

Lemma alignment_pairs_nonneg (e : option Element) (l : list (list Z)) :
  alignment_pairs e = OK l → Forall (Forall (λ z, 0 ≤ z)) l.
Proof.
  unfold alignment_pairs. destruct e as [el|]; [|by intros [= <-]].
  destruct (text el) as [[|c t]|]; try by intros [= <-].
  intros H%map_result_OK. apply Forall_forall. intros tup Htup.
  apply list_elem_of_lookup in Htup as [i Hi].
  destruct (Forall2_lookup_r _ _ _ _ _ H Hi) as (token & _ & Hpair).
  by eapply parse_pair_nonneg.
Qed.

Lemma sentence_of_inv (s : Element) (p : SentencePair) (a : LabeledAlignment) :
  sentence_of s = OK (p, a) →
  text_tokens (find "english" s) = OK (source p)
  ∧ text_tokens (find "czech" s) = OK (target p)
  ∧ alignment_pairs (find "sure" s) = OK (sure a)
  ∧ alignment_pairs (find "possible" s) = OK (possible a).
Proof.
  unfold sentence_of.
  destruct (text_tokens (find "english" s)); cbn; [|done].
  destruct (text_tokens (find "czech" s)); cbn; [|done].
  destruct (alignment_pairs (find "sure" s)); cbn; [|done].
  destruct (alignment_pairs (find "possible" s)); cbn; [|done].
  by intros [= <- <-].
Qed.

Lemma extract_sentences_inv (fromstring : string → result Element)
    (content : string) (sps : list SentencePair) (als : list LabeledAlignment) :
  extract_sentences fromstring content = OK (sps, als) →
  ∃ root ps,
    fromstring (str_replace "&" "&amp;" content) = OK root
    ∧ Forall2 (λ s pa, sentence_of s = OK pa) (findall "s" root) ps
    ∧ sps = ps.*1 ∧ als = ps.*2.
Proof.
  unfold extract_sentences.
  destruct (fromstring _) as [root|e]; cbn; [|done].
  intros (ps & Hps & -> & ->)%extract_root_OK. by exists root, ps.
Qed.

Lemma str_split_clean (s : string) : Forall clean_token (str_split s).
Proof.
  unfold clean_token. induction s as [|c s IH]; cbn; [constructor|].
  destruct (isspace c) eqn:Hc; [done|].
  destruct (starts_word s).
  - destruct (str_split s) as [|w ws]; constructor; try done.
    + cbn. by rewrite Hc.
    + apply Forall_cons in IH as [[_ Hw] _]. cbn. by rewrite Hc.
    + by apply Forall_cons in IH as [_ ?].
  - constructor; [|done]. cbn. by rewrite Hc.
Qed.

Lemma text_tokens_clean (e : option Element) (ws : list string) :
  text_tokens e = OK ws → Forall clean_token ws.
Proof.
  unfold text_tokens. destruct e as [el|]; [|by intros [= <-]].
  destruct (text el); [|done]. intros [= <-]. apply str_split_clean.
Qed.

Section AnyParserStores.

Variable fromstring : string → result Element.

(** X13. No position stored by [extract_sentences] is negative: a token is
    split at its hyphens, so no piece holds a minus sign, and [int] reads a
    piece without a minus sign as a number that is at least 0. *)
Theorem extract_sentences_positions_nonneg (content : string)
    (sps : list SentencePair) (als : list LabeledAlignment) :
  extract_sentences fromstring content = OK (sps, als) →
  Forall (λ a, Forall (Forall (λ z, 0 ≤ z)) (sure a)
               ∧ Forall (Forall (λ z, 0 ≤ z)) (possible a)) als.
Proof.
  intros (root & ps & _ & Hps & _ & ->)%extract_sentences_inv.
  apply Forall_fmap, Forall_forall. intros [p a] Hpa. cbn.
  apply list_elem_of_lookup in Hpa as [i Hi].
  destruct (Forall2_lookup_r _ _ _ _ _ Hps Hi) as (s & _ & Hs).
  apply sentence_of_inv in Hs as (_ & _ & Hsure & Hpossible).
  split; by eapply alignment_pairs_nonneg.
Qed.

(** X15. Every token of every sentence pair that [extract_sentences]
    returns is a non-empty string without any whitespace character. *)
Theorem extract_sentences_tokens_clean (content : string)
    (sps : list SentencePair) (als : list LabeledAlignment) :
  extract_sentences fromstring content = OK (sps, als) →
  Forall (λ p, Forall clean_token (source p) ∧ Forall clean_token (target p)) sps.
Proof.
  intros (root & ps & _ & Hps & -> & _)%extract_sentences_inv.
  apply Forall_fmap, Forall_forall. intros [p a] Hpa. cbn.
  apply list_elem_of_lookup in Hpa as [i Hi].
  destruct (Forall2_lookup_r _ _ _ _ _ Hps Hi) as (s & _ & Hs).
  apply sentence_of_inv in Hs as (Hen & Hcz & _ & _).
  split; by eapply text_tokens_clean.
Qed.

End AnyParserStores.

Lemma extract_sentences_positions_nonneg_witness :
  Forall (λ a, Forall (Forall (λ z, 0 ≤ z)) (sure a)
               ∧ Forall (Forall (λ z, 0 ≤ z)) (possible a))
    [mkLabeledAlignment [[1; 1]; [3; 2]] [[2; 2]]].
Proof.
  apply (extract_sentences_positions_nonneg xml_fromstring
    "<r><s><english>a b c</english><sure>1-1 +3-2</sure><possible>2-2</possible></s></r>"
    [mkSentencePair ["a"; "b"; "c"] []]).
  vm_compute. reflexivity.
Defined.

Lemma extract_sentences_tokens_clean_witness :
  Forall (λ p, Forall clean_token (source p) ∧ Forall clean_token (target p))
    [mkSentencePair ["a"; "b"] ["c"]].
Proof.
  apply (extract_sentences_tokens_clean xml_fromstring
    "<r><s><english> a   b </english><czech>c</czech></s></r>"
    [mkSentencePair ["a"; "b"] ["c"]] [mkLabeledAlignment [] []]).
  vm_compute. reflexivity.
Defined.

(** X14. A stored tuple has one component more than its token has hyphens,
    so it is a pair exactly for the tokens with one hyphen: the tuples of
    an alignment field correspond, in order, to the tokens of its text. *)
Theorem alignment_pairs_arity (el : Element) (t : string) (l : list (list Z)) :
  text el = Some t →
  alignment_pairs (Some el) = OK l →
  Forall2 (λ token tup, length tup = S (count_char "-" token))
    (str_split (str_strip t)) l.
Proof.
  intros Ht. cbn [alignment_pairs]. rewrite Ht.
  destruct t as [|c t]; [by intros [= <-]; constructor|].
  intros H%map_result_OK. eapply Forall2_impl; [exact H|].
  intros token tup Hpair. cbn in Hpair. unfold parse_pair in Hpair.
  apply map_result_length in Hpair. by rewrite Hpair, str_split_on_length.
Qed.

Lemma alignment_pairs_arity_witness :
  Forall2 (λ token tup, length tup = S (count_char "-" token))
    (str_split (str_strip "1-2 3-4-5 6")) [[1; 2]; [3; 4; 5]; [6]].
Proof.
  apply (alignment_pairs_arity (mkElement "sure" (Some "1-2 3-4-5 6") [] None)).
  - reflexivity.
  - vm_compute. reflexivity.
Defined.

(** ** The corpus reader: whitespace and ampersands *)

Lemma str_split_lstrip (s : string) : str_split (str_lstrip s) = str_split s.
Proof.
  induction s as [|c s IH]; cbn; [done|].
  destruct (isspace c) eqn:Hc; [done|]. cbn. by rewrite Hc.
Qed.

Lemma starts_word_rstrip (s : string) :
  starts_word (str_rstrip s) = starts_word s.
Proof.
  destruct s as [|c s]; cbn; [done|].
  destruct (str_rstrip s); [|done].
  destruct (isspace c) eqn:Hc; cbn; by rewrite ?Hc.
Qed.

Lemma str_split_rstrip (s : string) : str_split (str_rstrip s) = str_split s.
Proof.
  induction s as [|c s IH]; cbn; [done|].
  pose proof (starts_word_rstrip s) as Hw.
  destruct (str_rstrip s) as [|c' r] eqn:Hr.
  - cbn in IH, Hw. rewrite <- IH, <- Hw.
    destruct (isspace c) eqn:Hc; cbn; [done|]. by rewrite Hc.
  - cbn [str_split]. rewrite <- IH, <- Hw. done.
Qed.

Lemma str_split_strip (s : string) : str_split (str_strip s) = str_split s.
Proof. unfold str_strip. by rewrite str_split_rstrip, str_split_lstrip. Qed.

Lemma str_split_pad_l (pad s : string) :
  all_whitespace pad = true → str_split (pad +:+ s) = str_split s.
Proof.
  induction pad as [|c pad IH]; cbn; [done|].
  intros [-> Hpad]%andb_true_iff. by apply IH.
Qed.

Lemma starts_word_whitespace (pad : string) :
  all_whitespace pad = true → starts_word pad = false.
Proof. destruct pad as [|c pad]; cbn; [done|]. by intros [-> _]%andb_true_iff. Qed.

Lemma str_split_pad_r (pad s : string) :
  all_whitespace pad = true → str_split (s +:+ pad) = str_split s.
Proof.
  intros Hpad. induction s as [|c s IH]; cbn.
  - rewrite <- (append_empty_r pad). by rewrite str_split_pad_l.
  - rewrite IH. destruct s as [|c' s]; cbn; [|done].
    by rewrite starts_word_whitespace.
Qed.

(** X16. Whitespace around the text of a field does not change its tokens:
    a text field whose text has whitespace added in front and behind gives
    the tokens of the text itself. *)
Theorem text_tokens_padding (name : string) (kids : list Element)
    (tl : option string) (pad1 pad2 t : string) :
  all_whitespace pad1 = true → all_whitespace pad2 = true →
  text_tokens (Some (mkElement name (Some (pad1 +:+ t +:+ pad2)) kids tl))
  = text_tokens (Some (mkElement name (Some t) kids tl)).
Proof.
  intros H1 H2. cbn. f_equal.
  by rewrite !str_split_strip, str_split_pad_l, str_split_pad_r.
Qed.

Lemma text_tokens_padding_witness :
  text_tokens (Some (mkElement "english" (Some "  the cat ") [] None))
  = text_tokens (Some (mkElement "english" (Some "the cat") [] None)).
Proof.
  apply (text_tokens_padding "english" [] None "  " " " "the cat");
    vm_compute; reflexivity.
Defined.

(** X17. After the pass over the ampersands no ampersand of the content
    stands alone: wherever one stands in the escaped content, the four
    characters after it are those of the escape sequence. *)
Theorem escaped_content_has_no_bare_ampersand (content pre post : string) :
  str_replace "&" "&amp;" content = pre +:+ String "&" post →
  ∃ post', post = "amp;" +:+ post'.
Proof.
  revert pre. induction content as [|c s IH]; intros pre; cbn.
  - by destruct pre.
  - destruct (Ascii.eqb c "&") eqn:Hc.
    + destruct pre as [|c0 [|c1 [|c2 [|c3 [|c4 pre]]]]]; cbn;
        intros [= ]; subst; try discriminate; eauto.
    + destruct pre as [|c0 pre]; cbn; intros [= ]; subst.
      * by rewrite Ascii.eqb_refl in Hc.
      * by eapply IH.
Qed.

Lemma escaped_content_has_no_bare_ampersand_witness :
  ∃ post', "amp; b &amp;lt;" = "amp;" +:+ post'.
Proof.
  apply (escaped_content_has_no_bare_ampersand "a & b &lt;" "a ").
  reflexivity.
Defined.

(** ** The corpus reader: which children of a sentence element it reads *)

Lemma find_other (f name : string) (txt tl : option string)
    (kids1 kids2 : list Element) (e : Element) :
  tag e ≠ f →
  find f (mkElement name txt (kids1 ++ e :: kids2) tl)
  = find f (mkElement name txt (kids1 ++ kids2) tl).
Proof.
  intros He. unfold find, findall. cbn [children].
  by rewrite !filter_app, filter_cons, decide_False.
Qed.

Lemma find_repeated (f name : string) (txt tl : option string)
    (kids1 kids2 : list Element) (e e0 : Element) :
  e0 ∈ kids1 → tag e0 = tag e →
  find f (mkElement name txt (kids1 ++ e :: kids2) tl)
  = find f (mkElement name txt (kids1 ++ kids2) tl).
Proof.
  intros He0 Htag. destruct (decide (tag e = f)) as [Hf|Hf];
    [|by apply find_other].
  unfold find, findall. cbn [children].
  rewrite !filter_app, filter_cons, decide_True by done.
  assert (e0 ∈ filter (λ c, tag c = f) kids1) as Hin.
  { apply list_elem_of_filter. split; [congruence|done]. }
  by destruct (filter (λ c, tag c = f) kids1); [apply elem_of_nil in Hin|].
Qed.

(** X19. Where a sentence element holds a field twice, only the first is
    read: a child whose tag an earlier child already has does not change
    the pair and the alignment of the sentence, and cannot make it fail. *)
Theorem sentence_of_repeated_field (name : string) (txt tl : option string)
    (kids1 kids2 : list Element) (e e0 : Element) :
  e0 ∈ kids1 → tag e0 = tag e →
  sentence_of (mkElement name txt (kids1 ++ e :: kids2) tl)
  = sentence_of (mkElement name txt (kids1 ++ kids2) tl).
Proof.
  intros He0 Htag. unfold sentence_of.
  by rewrite !(find_repeated _ name txt tl kids1 kids2 e e0).
Qed.

Lemma sentence_of_repeated_field_witness :
  sentence_of (mkElement "s" None
                 ([mkElement "english" (Some "a b") [] None]
                    ++ mkElement "english" None [] None :: []) None)
  = sentence_of (mkElement "s" None
                   ([mkElement "english" (Some "a b") [] None] ++ []) None).
Proof.
  apply (sentence_of_repeated_field "s" None None
           [mkElement "english" (Some "a b") [] None] []
           (mkElement "english" None [] None)
           (mkElement "english" (Some "a b") [] None)).
  - apply elem_of_cons. left. reflexivity.
  - reflexivity.
Defined.

(** X20. A child of a sentence element that is none of the four fields is
    not read at all: with or without it the sentence gives the same pair
    and alignment, or the same exception. *)
Theorem sentence_of_other_child (name : string) (txt tl : option string)
    (kids1 kids2 : list Element) (e : Element) :
  tag e ∉ ["english"; "czech"; "sure"; "possible"] →
  sentence_of (mkElement name txt (kids1 ++ e :: kids2) tl)
  = sentence_of (mkElement name txt (kids1 ++ kids2) tl).
Proof.
  intros He. unfold sentence_of.
  rewrite !(find_other _ name txt tl kids1 kids2 e); [done|..];
    intros Heq; apply He; rewrite Heq;
    repeat first [apply list_elem_of_here | apply list_elem_of_further].
Qed.

Lemma sentence_of_other_child_witness :
  sentence_of (mkElement "s" None
                 ([mkElement "english" (Some "a") [] None]
                    ++ mkElement "note" None [] None
                    :: [mkElement "sure" (Some "1-1") [] None]) None)
  = sentence_of (mkElement "s" None
                   ([mkElement "english" (Some "a") [] None]
                      ++ [mkElement "sure" (Some "1-1") [] None]) None).
Proof.
  apply (sentence_of_other_child "s" None None
           [mkElement "english" (Some "a") [] None]
           [mkElement "sure" (Some "1-1") [] None]
           (mkElement "note" None [] None)).
  cbn. intros H. repeat (apply elem_of_cons in H as [H|H]; [discriminate H|]).
  by apply elem_of_nil in H.
Defined.
